(** * git-revise: the todo-list engine ([gitrevise/todo.py])

    A shallow embedding of the plan builder, the validator, the autosquash
    matcher, the presentation bridge and the executor of [gitrevise/todo.py],
    together with the properties of these functions that the specification
    states.

    Conventions.
    - Python [bytes] and [str] are both [string] (a list of 8-bit characters).
    - A Python exception is a value of [exn]; a function that may raise
      returns a [result].
    - The object store, the editor and the merge machinery live in modules
      that [todo.py] only imports ([odb], [utils]); they are the fields of
      the record [Repository], or are modelled from the specification where
      a property depends on what they return. *)

From Stdlib Require Import Ascii String.
From stdpp Require Import base option list gmap strings.

Set Default Proof Using "Type".
Set Warnings "-clear-no-such-hyp".

(** ** Exceptions and results *)

(** An object identity ([odb.Oid], a [bytes] subclass). *)
Abbreviation Oid := string (only parsing).
Abbreviation bytes := string (only parsing).

(** The [ValueError]s of [todo.py], one constructor per [raise] site. *)
Inductive value_error :=
| UnrecognizedAction (instr : string)
    (* 'Unrecognized action '{instr}'. Expected one of pick, fixup, squash,
       reword, cut, index, update-ref or #' *)
| MalformedTodoEntry (instr : string)
    (* 'todo entry '{instr}' must follow format <action> <operand>
       <optional summary>' *)
| DuplicateCommit     (* 'Unexpected duplicate commit found in todos' *)
| UnreferencedCommit  (* 'Unexpected commits not referenced in original TODO list' *)
| CantDropNonempty (o : Oid)  (* 'Can't drop nonempty commit {oid}' *)
| IndexNotLast        (* ''index' actions follow all non-index todo items' *)
| NoBaseCommit        (* 'Actions can not be applied to the base commit' *)
| FixupFirst          (* 'Cannot apply fixup as first commit' *)
| SquashFirst         (* 'Cannot apply squash as first commit' *)
| UnhandledAction     (* 'Unhandled action: {action}' *)
| NoCommitsIntroduced (* 'No commits introduced on top of root commit' *)
| UnpackMismatch.     (* tuple unpacking of a list of the wrong length *)

(** What a collaborator ([odb], [utils]) may raise. *)
Inductive external_error :=
| ExternalValueError (msg : string) (* a ValueError raised inside odb / utils *)
| MissingObject                     (* odb.MissingObject *)
| ExternalFailure (msg : string).   (* editor failure, merge conflict, ... *)

(** [OutOfFuel] is no Python exception: it stands for a loop of the model
    that ran out of fuel, which no loop here does
    ([drop_bubbles_fuel_enough], [strip_prefixes_fuel_enough]). *)
Inductive exn :=
| ValueError (e : value_error)
| AssertionError (msg : string)
| IndexError
| External (e : external_error)
| OutOfFuel.

Inductive result (A : Type) :=
| Ok (a : A)
| Raise (e : exn).
Arguments Ok {A} a.
Arguments Raise {A} e.

Global Instance result_bind : MBind result := λ A B k m,
  match m with
  | Ok a => k a
  | Raise e => Raise e
  end.

(** [[f(x) for x in l]] where [f] may raise: the first exception wins. *)
Fixpoint mapM {A B} (f : A -> result B) (l : list A) : result (list B) :=
  match l with
  | [] => Ok []
  | x :: l' => y ← f x; ys ← mapM f l'; Ok (y :: ys)
  end.

(** A loop that threads a value through a body that may raise. *)
Fixpoint foldM {A S} (f : S -> A -> result S) (l : list A) (s : S) : result S :=
  match l with
  | [] => Ok s
  | x :: l' => s' ← f s x; foldM f l' s'
  end.

(** The answer of a collaborator, and its call from [todo.py]. *)
Definition answer (A : Type) : Type := external_error + A.

Definition call {A} (r : answer A) : result A :=
  match r with
  | inr a => Ok a
  | inl e => Raise (External e)
  end.

(** ** Bytes *)

Definition LF : ascii := "010"%char.
Definition CR : ascii := "013"%char.
Definition SP : ascii := " "%char.

(** [bytes.isspace] on one byte: the six ASCII whitespace characters. *)
Definition is_space (c : ascii) : bool := Ascii.is_space c.

(** [s.startswith(prefix)]. *)
Definition startswith (s prefix : string) : bool := String.prefix prefix s.
Global Arguments startswith : simpl never.

Definition snoc (s : string) (c : ascii) : string := s +:+ String c EmptyString.

(** [bytes.splitlines()]: a line ends at LF, CR or CR LF; the line ends are
    dropped and there is no empty last line. *)
Fixpoint splitlines_go (cur s : string) : list string :=
  match s with
  | EmptyString => if decide (cur = EmptyString) then [] else [cur]
  | String c s' =>
      if Ascii.eqb c LF then cur :: splitlines_go EmptyString s'
      else if Ascii.eqb c CR then
        match s' with
        | String c' s'' =>
            if Ascii.eqb c' LF then cur :: splitlines_go EmptyString s''
            else cur :: splitlines_go EmptyString s'
        | EmptyString => [cur]
        end
      else splitlines_go (snoc cur c) s'
  end.
Definition splitlines (s : string) : list string := splitlines_go EmptyString s.

(** [s.split(sep)] for a non-empty separator: leftmost matches, which do not
    overlap; [skip] counts the characters of a match still to be passed. *)
Fixpoint split_go (sep : string) (skip : nat) (cur s : string) : list string :=
  match s with
  | EmptyString => [cur]
  | String c s' =>
      match skip with
      | S k => split_go sep k cur s'
      | O =>
          if startswith s sep
          then cur :: split_go sep (String.length sep - 1) EmptyString s'
          else split_go sep 0 (snoc cur c) s'
      end
  end.
Definition split (s sep : string) : list string := split_go sep 0 EmptyString s.

(** [s.split(sep, maxsplit=1)] for a one-byte separator: one or two parts. *)
Fixpoint split1_go (sep : ascii) (cur s : string) : list string :=
  match s with
  | EmptyString => [cur]
  | String c s' =>
      if Ascii.eqb c sep then [cur; s'] else split1_go sep (snoc cur c) s'
  end.
Definition split1 (s : string) (sep : ascii) : list string :=
  split1_go sep EmptyString s.

(** [s.lstrip()], [s.rstrip()], [s.strip()], [s.isspace()]. *)
Fixpoint lstrip (s : string) : string :=
  match s with
  | String c s' => if is_space c then lstrip s' else s
  | EmptyString => EmptyString
  end.
Definition rstrip (s : string) : string := String.rev (lstrip (String.rev s)).
Definition strip (s : string) : string := lstrip (rstrip s).

Fixpoint all_space (s : string) : bool :=
  match s with
  | String c s' => is_space c && all_space s'
  | EmptyString => true
  end.
Definition isspace (s : string) : bool :=
  match s with
  | EmptyString => false
  | _ => all_space s
  end.

(** The longest prefix without whitespace, and what follows it. *)
Fixpoint take_word (s : string) : string * string :=
  match s with
  | String c s' =>
      if is_space c then (EmptyString, s)
      else let '(w, rest) := take_word s' in (String c w, rest)
  | EmptyString => (EmptyString, EmptyString)
  end.

(** [s.split(maxsplit=1)]: split on runs of whitespace, at most once; leading
    whitespace is skipped, and so is the whitespace before the remainder. *)
Definition split_ws1 (s : string) : list string :=
  match lstrip s with
  | EmptyString => []
  | s1 =>
      let '(w, rest) := take_word s1 in
      match lstrip rest with
      | EmptyString => [w]
      | r => [w; r]
      end
  end.

(** [join] of the empty bytes: the concatenation of [parts]. *)
Definition join (parts : list string) : string :=
  foldr String.append EmptyString parts.

(** ** Action vocabulary *)

Inductive CommitAction := PICK | FIXUP | SQUASH | REWORD | CUT | INDEX.

Inductive CommitlessAction := COMMENT | UPDATE_REF.

Definition CommitAction_value (a : CommitAction) : string :=
  match a with
  | PICK => "pick"
  | FIXUP => "fixup"
  | SQUASH => "squash"
  | REWORD => "reword"
  | CUT => "cut"
  | INDEX => "index"
  end.

Definition CommitlessAction_value (a : CommitlessAction) : string :=
  match a with
  | COMMENT => "#"
  | UPDATE_REF => "update-ref"
  end.

Global Instance CommitAction_eq_dec : EqDecision CommitAction.
Proof. solve_decision. Defined.
Global Instance CommitlessAction_eq_dec : EqDecision CommitlessAction.
Proof. solve_decision. Defined.

(** [Union[CommitAction, CommitlessAction]]. *)
Definition Action : Type := CommitAction + CommitlessAction.

Definition Action_value (a : Action) : string :=
  match a with
  | inl c => CommitAction_value c
  | inr c => CommitlessAction_value c
  end.

(** Iterating an [Enum] class yields its members in definition order. *)
Definition CommitAction_members : list CommitAction :=
  [PICK; FIXUP; SQUASH; REWORD; CUT; INDEX].
Definition CommitlessAction_members : list CommitlessAction :=
  [COMMENT; UPDATE_REF].

(** A [for] loop whose body may [return]: the first iteration that returns
    decides. *)
Fixpoint first_return {A B} (body : A -> option B) (l : list A) : option B :=
  match l with
  | [] => None
  | x :: l' =>
      match body x with
      | Some r => Some r
      | None => first_return body l'
      end
  end.

Definition parse_action (instr : string) : result Action :=
  match
    first_return
      (fun enumeration : list Action =>
         first_return
           (fun enumvalue =>
              if startswith (Action_value enumvalue) instr
              then Some enumvalue else None)
           enumeration)
      [inl <$> CommitAction_members; inr <$> CommitlessAction_members]
  with
  | Some enumvalue => Ok enumvalue
  | None => Raise (ValueError (UnrecognizedAction instr))
  end.

(** The order the specification gives: the commit-bearing actions as
    declared, then the commit-less ones as declared. *)
Definition declared_order : list Action :=
  [inl PICK; inl FIXUP; inl SQUASH; inl REWORD; inl CUT; inl INDEX;
   inr COMMENT; inr UPDATE_REF].

(** [a] is the first action of [declared_order] whose canonical name starts
    with [instr]. *)
Definition first_declared_match (instr : string) (a : Action) : Prop :=
  ∃ before after,
    declared_order = before ++ a :: after ∧
    startswith (Action_value a) instr = true ∧
    ∀ b, b ∈ before → startswith (Action_value b) instr = false.

(** ** Step model *)

(** [odb.Commit]: the fields [todo.py] reads. *)
Record Commit := {
  oid : Oid;
  tree_oid : Oid;
  parent_oids : list Oid;
  message : bytes;
  author : bytes;
}.

(** [Commit.__eq__] compares identities. *)
Definition Commit_eqb (a b : Commit) : bool := bool_decide (oid a = oid b).

Record CommitlessStep := {
  extra_action : CommitlessAction;
  operand : bytes;
}.

(** [CommitStep]; the field [step_message] is the attribute [message]. *)
Record CommitStep := {
  action : CommitAction;
  commit : Commit;
  step_message : bytes;
  extrasteps : list CommitlessStep;
}.

(** [CommitStep.__init__]. *)
Definition new_CommitStep (a : CommitAction) (c : Commit) : CommitStep :=
  {| action := a; commit := c; step_message := message c; extrasteps := [] |}.

(** [step.extrasteps.append(extra)]. *)
Definition append_extrastep (step : CommitStep) (extra : CommitlessStep)
  : CommitStep :=
  {| action := action step; commit := commit step;
     step_message := step_message step;
     extrasteps := extrasteps step ++ [extra] |}.

(** [step.message = m]. *)
Definition set_message (step : CommitStep) (m : bytes) : CommitStep :=
  {| action := action step; commit := commit step;
     step_message := m; extrasteps := extrasteps step |}.

(** [CommitStep.significant_extrasteps]. *)
Definition significant_extrasteps (step : CommitStep) : list CommitlessStep :=
  filter (fun x => extra_action x ≠ COMMENT) (extrasteps step).

(** [CommitlessStep.to_bytes]. *)
Definition to_bytes (x : CommitlessStep) : bytes :=
  (CommitlessAction_value (extra_action x) +:+ " ") +:+ operand x.

(** ** Collaborators

    What [todo.py] imports from [odb] and [utils]. Every commit carries its
    repository, so one record stands for all of it. *)
Record Repository := {
  (* odb.Oid *)
  Oid_fromhex : string -> answer Oid;
  Oid_short : Oid -> string;
  (* odb.Repository *)
  git_show_ref : answer bytes;      (* repo.git('show-ref', '--heads', '--tags') *)
  git_worktree_list : answer bytes; (* repo.git('worktree', 'list', '--porcelain') *)
  get_commit : string -> answer Commit;
  head_on_top : bool; (* bool_config('sequence.presentation-order-head-on-top') *)
  default_author : bytes;
  (* odb.Commit *)
  load_commit : Oid -> answer Commit;      (* how Commit.parents() finds a parent *)
  commit_hash : Oid -> list Oid -> bytes -> bytes -> Oid;
  rebase : Commit -> option Commit -> option Oid -> answer Commit;
  message_with_edited_summary : Commit -> bytes -> bytes;
  (* utils *)
  decode_lossy : bytes -> string;
  run_editor : bytes -> nat -> answer bytes;          (* text, number of commands *)
  run_sequence_editor : bytes -> nat -> answer bytes; (* text, number of commands *)
  edit_commit_message : Commit -> answer Commit;
  cut_commit : Commit -> answer Commit;
}.

(** [str(step)]: f'{self.action} {self.commit.oid.short()}'. *)
Definition CommitStep_str (repo : Repository) (step : CommitStep) : string :=
  (CommitAction_value (action step) +:+ " ") +:+ Oid_short repo (oid (commit step)).

(** Modelled from the spec: [Commit.summary] of [odb], the first line of the
    commit's message. *)
Definition summary (c : Commit) : bytes :=
  match split1 (message c) LF with
  | line :: _ => line
  | [] => EmptyString
  end.

(** Modelled from the spec: [Commit.update] of [odb], which derives a new
    commit from a base with the given fields overridden; the identity of the
    result is the hash of its content. *)
Definition update (repo : Repository) (c : Commit)
    (tree : option Oid) (msg : option bytes) (auth : option bytes) : Commit :=
  let t := default (tree_oid c) tree in
  let m := default (message c) msg in
  let a := default (author c) auth in
  {| oid := commit_hash repo t (parent_oids c) m a;
     tree_oid := t; parent_oids := parent_oids c; message := m; author := a |}.

(** [Commit.parents()]. *)
Definition parents (repo : Repository) (c : Commit) : result (list Commit) :=
  mapM (fun p => call (load_commit repo p)) (parent_oids c).

(** ** Plan builder *)

(** One line of [git show-ref]: [(sha, refname) = line.split(b' ', maxsplit=1)]
    and [Oid.fromhex(sha.decode())]. *)
Definition show_ref_line (repo : Repository) (line : bytes)
  : result (Oid * bytes) :=
  match split1 line SP with
  | [sha; refname] => o ← call (Oid_fromhex repo sha); Ok (o, refname)
  | _ => Raise (ValueError UnpackMismatch)
  end.

(** [commit_refs[o].append(refname)] on a [defaultdict(list)]. *)
Definition commit_refs_append (commit_refs : gmap Oid (list bytes))
    (o : Oid) (refname : bytes) : gmap Oid (list bytes) :=
  <[o := default [] (commit_refs !! o) ++ [refname]]> commit_refs.

Definition find_commit_refs (repo : Repository) (out : bytes)
  : result (gmap Oid (list bytes)) :=
  foldM (fun commit_refs line =>
           '(o, refname) ← show_ref_line repo line;
           Ok (commit_refs_append commit_refs o refname))
        (splitlines out) ∅.

(** One line of a [git worktree list --porcelain] record. *)
Definition outchecked_line (outchecked : gset bytes) (line : bytes)
  : result (gset bytes) :=
  match split1 line SP with
  | key :: rest =>
      if decide (key = "branch") then
        match rest with
        | val :: _ => Ok ({[val]} ∪ outchecked)
        | [] => Raise IndexError
        end
      else Ok outchecked
  | [] => Raise IndexError
  end.

Definition find_outchecked (out : bytes) : result (gset bytes) :=
  foldM (fun outchecked record =>
           foldM outchecked_line (split record (String LF EmptyString))
                 outchecked)
        (split out (String LF (String LF EmptyString))) ∅.

Definition branch_prefix : bytes := "refs/heads/".

(** The body of the innermost loop of [build_todos]. *)
Definition annotate_ref (outchecked : gset bytes) (step : CommitStep)
    (ref : bytes) : CommitStep :=
  let action :=
    if startswith ref branch_prefix && bool_decide (ref ∉ outchecked)
    then UPDATE_REF else COMMENT in
  append_extrastep step {| extra_action := action; operand := ref |}.

Definition annotate_step (commit_refs : gmap Oid (list bytes))
    (outchecked : gset bytes) (step : CommitStep) : CommitStep :=
  foldl (annotate_ref outchecked) step
        (default [] (commit_refs !! oid (commit step))).

Definition build_todos (repo : Repository) (commits : list Commit)
    (index : option Commit) : result (list CommitStep) :=
  let steps := new_CommitStep PICK <$> commits in
  let steps :=
    match index with
    | Some index => steps ++ [new_CommitStep INDEX index]
    | None => steps
    end in
  (* Find refs for --update-refs *)
  out ← call (git_show_ref repo);
  commit_refs ← find_commit_refs repo out;
  (* Except those already checked out: They would require detaching. *)
  out ← call (git_worktree_list repo);
  outchecked ← find_outchecked out;
  Ok (annotate_step commit_refs outchecked <$> steps).

(** *** What the specification says of the plan builder *)

(** The refs of a [show-ref] listing that point at [o], in listing order. *)
Definition refs_pointing_at (entries : list (Oid * bytes)) (o : Oid)
  : list bytes :=
  (filter (fun e => e.1 = o) entries).*2.

(** The branch a worktree record line names, if it names one. *)
Definition line_branch (line : bytes) : option bytes :=
  match split1 line SP with
  | [key; val] => if decide (key = "branch") then Some val else None
  | _ => None
  end.

(** The branches checked out in the worktrees of the given records. *)
Definition checked_out_in (records : list bytes) : list bytes :=
  records ≫= fun record =>
    omap line_branch (split record (String LF EmptyString)).

(** The records of a worktree listing; the main worktree comes first. *)
Definition worktree_records (out : bytes) : list bytes :=
  split out (String LF (String LF EmptyString)).

(** The extra step the specification attaches for [ref], given the set of
    branches that count as checked out. *)
Definition extra_step_for (checked_out : list bytes) (ref : bytes)
  : CommitlessStep :=
  {| extra_action :=
       if startswith ref branch_prefix && bool_decide (ref ∉ checked_out)
       then UPDATE_REF else COMMENT;
     operand := ref |}.

(** The plan builder's annotation, with [which] selecting the worktree
    records whose branches count as checked out. *)
Definition annotated_by (repo : Repository)
    (which : list bytes -> list bytes) (steps : list CommitStep) : Prop :=
  ∃ refs_out worktrees_out entries,
    git_show_ref repo = inr refs_out ∧
    git_worktree_list repo = inr worktrees_out ∧
    mapM (show_ref_line repo) (splitlines refs_out) = Ok entries ∧
    Forall
      (fun step =>
         extrasteps step =
         extra_step_for (checked_out_in (which (worktree_records worktrees_out)))
           <$> refs_pointing_at entries (oid (commit step)))
      steps.

(** ** Validator *)

Definition oid_set (steps : list CommitStep) : gset Oid :=
  list_to_set ((fun step => oid (commit step)) <$> steps).

(** The [for index, commit in enumerate(dropped_list)] loop: the index of the
    first commit whose tree is [parent_tree]; [None] is the [else] branch. *)
Fixpoint scan_for_tree (parent_tree : Oid) (index : nat) (l : list Commit)
  : option nat :=
  match l with
  | [] => None
  | commit :: l' =>
      if decide (tree_oid commit = parent_tree) then Some index
      else scan_for_tree parent_tree (S index) l'
  end.

(** The [while] loop over [dropped_list]; every iteration that does not leave
    the loop uses one unit of [fuel], and [None] means the fuel ran out. *)
Fixpoint drop_bubbles_fuel (repo : Repository) (fuel : nat)
    (dropped_list : list Commit) : option (result (list Commit)) :=
  match dropped_list with
  | [] => Some (Ok dropped_list)
  | head :: _ =>
      if decide (length (parent_oids head) = 1) then
        match parents repo head with
        | Raise e => Some (Raise e)
        | Ok [] => Some (Raise IndexError)
        | Ok (parent :: _) =>
            match scan_for_tree (tree_oid parent) 0 dropped_list with
            | Some index =>
                match fuel with
                | S fuel' =>
                    drop_bubbles_fuel repo fuel' (drop (S index) dropped_list)
                | O => None
                end
            | None => Some (Ok dropped_list)
            end
        end
      else Some (Ok dropped_list)
  end.

(** The list shrinks in every iteration, so its length is fuel enough
    ([drop_bubbles_fuel_enough]). *)
Definition drop_bubbles (repo : Repository) (dropped_list : list Commit)
  : result (list Commit) :=
  match drop_bubbles_fuel repo (length dropped_list) dropped_list with
  | Some r => r
  | None => Raise OutOfFuel
  end.

(** The [saw_index] loop. *)
Fixpoint index_last (saw_index : bool) (new : list CommitStep) : result unit :=
  match new with
  | [] => Ok ()
  | step :: new' =>
      if decide (action step = INDEX) then index_last true new'
      else if saw_index then Raise (ValueError IndexNotLast)
      else index_last saw_index new'
  end.

Definition dropped (old new : list CommitStep) : list Commit :=
  commit <$> filter (fun o => oid (commit o) ∉ oid_set new) old.

Definition validate_todos (repo : Repository) (old new : list CommitStep)
  : result unit :=
  let old_set := oid_set old in
  let new_set := oid_set new in
  if decide (size old_set = length old) then
    if decide (size new_set ≠ length new) then
      Raise (ValueError DuplicateCommit)
    else if decide (new_set ∖ old_set ≠ ∅) then
      Raise (ValueError UnreferencedCommit)
    else
      (* Allow dropping empty commits and bubbles *)
      dropped_list ← drop_bubbles repo (dropped old new);
      match dropped_list with
      | c :: _ => Raise (ValueError (CantDropNonempty (oid c)))
      | [] => index_last false new
      end
  else Raise (AssertionError "Unexpected duplicate original commit!").

(** *** The walk over the dropped commits, in the specification's words *)

(** [bubble_walk repo l r]: walking [l] from its start leaves [r]. *)
Inductive bubble_walk (repo : Repository) : list Commit -> list Commit -> Prop :=
| walk_empty : bubble_walk repo [] []
| walk_stop_parents head l :
    length (parent_oids head) ≠ 1 ->
    bubble_walk repo (head :: l) (head :: l)
| walk_stop_not_found head l p parent :
    parent_oids head = [p] ->
    load_commit repo p = inr parent ->
    (∀ c, c ∈ head :: l -> tree_oid c ≠ tree_oid parent) ->
    bubble_walk repo (head :: l) (head :: l)
| walk_discard head l p parent before c after r :
    parent_oids head = [p] ->
    load_commit repo p = inr parent ->
    head :: l = before ++ c :: after ->
    (∀ b, b ∈ before -> tree_oid b ≠ tree_oid parent) ->
    tree_oid c = tree_oid parent ->
    bubble_walk repo after r ->
    bubble_walk repo (head :: l) r.

(** The index steps of [new] form a trailing run. *)
Definition index_steps_trail (new : list CommitStep) : Prop :=
  ∃ front tail_,
    new = front ++ tail_ ∧
    Forall (fun step => action step ≠ INDEX) front ∧
    Forall (fun step => action step = INDEX) tail_.

(** The commit identities of a plan, in plan order. *)
Definition plan_oids (plan : list CommitStep) : list Oid :=
  (fun step => oid (commit step)) <$> plan.

(** Two distinct steps of [new] have the same commit identity. *)
Definition has_duplicate (new : list CommitStep) : Prop :=
  ∃ i j s1 s2,
    i ≠ j ∧ new !! i = Some s1 ∧ new !! j = Some s2 ∧
    oid (commit s1) = oid (commit s2).

(** A step of [new] has a commit identity that [old] does not have. *)
Definition has_foreign (old new : list CommitStep) : Prop :=
  ∃ s, s ∈ new ∧ oid (commit s) ∉ plan_oids old.

(** A step that is not an index step comes after an index step. *)
Definition non_index_after_index (new : list CommitStep) : Prop :=
  ∃ i j s1 s2,
    i < j ∧ new !! i = Some s1 ∧ new !! j = Some s2 ∧
    action s1 = INDEX ∧ action s2 ≠ INDEX.

(** ** Autosquash matcher *)

Definition fixup_prefix : bytes := "fixup! ".
Definition squash_prefix : bytes := "squash! ".

(** The prefix-stripping [while] loop of [add_autosquash_step]; [None] means
    the fuel ran out. *)
Fixpoint strip_prefixes_fuel (fuel : nat) (needle : bytes)
  : option (result bytes) :=
  if startswith needle fixup_prefix || startswith needle squash_prefix then
    match split_ws1 needle with
    | [_; rest] =>
        match fuel with
        | S fuel' => strip_prefixes_fuel fuel' rest
        | O => None
        end
    | _ => Some (Raise IndexError)   (* needle.split(maxsplit=1)[1] *)
    end
  else Some (Ok needle).

(** The needle gets shorter in every iteration
    ([strip_prefixes_fuel_enough]). *)
Definition strip_prefixes (needle : bytes) : result bytes :=
  match strip_prefixes_fuel (String.length needle) needle with
  | Some r => r
  | None => Raise OutOfFuel
  end.

(** [for seq in picks: if p(seq): seq.append(new_step); return]; [None] when
    the loop ends without returning. *)
Fixpoint append_to_first (p : list CommitStep -> bool) (new_step : CommitStep)
    (picks : list (list CommitStep)) : option (list (list CommitStep)) :=
  match picks with
  | [] => None
  | seq :: picks' =>
      if p seq then Some ((seq ++ [new_step]) :: picks')
      else (fun r => seq :: r) <$> append_to_first p new_step picks'
  end.

(** [seq[0].commit.summary().startswith(needle)]; sequences are never empty. *)
Definition lead_summary_startswith (needle : bytes) (seq : list CommitStep)
  : bool :=
  match seq with
  | lead :: _ => startswith (summary (commit lead)) needle
  | [] => false
  end.

(** The picks after the call; a decoding failure of the needle is a
    [ValueError] and is caught with those of [get_commit]. *)
Definition add_autosquash_step (repo : Repository) (step : CommitStep)
    (picks : list (list CommitStep)) : result (list (list CommitStep)) :=
  let summary_ := summary (commit step) in
  needle ← strip_prefixes summary_;
  let fallthrough := Ok (picks ++ [[step]]) in
  if decide (needle ≠ summary_) then
    new_step ←
      (if startswith summary_ "fixup!"
       then Ok (new_CommitStep FIXUP (commit step))
       else if startswith summary_ "squash!"
       then Ok (new_CommitStep SQUASH (commit step))
       else Raise (AssertionError EmptyString));
    match append_to_first (lead_summary_startswith needle) new_step picks with
    | Some picks' => Ok picks'
    | None =>
        match get_commit repo needle with
        | inr target =>
            match
              append_to_first
                (fun seq => existsb (fun s => Commit_eqb (commit s) target) seq)
                new_step picks
            with
            | Some picks' => Ok picks'
            | None => fallthrough
            end
        | inl (ExternalValueError _) | inl MissingObject => fallthrough
        | inl e => Raise (External e)
        end
    end
  else fallthrough.

Definition autosquash_todos (repo : Repository) (todos : list CommitStep)
  : result (list CommitStep) :=
  picks ← foldM (fun picks step => add_autosquash_step repo step picks) todos [];
  Ok (concat picks).

(** ** Step parsing *)

(** The character classes of the pattern of [parse_step]: [\S], [\s] and
    [.] (any byte but LF). *)
Inductive char_class := NonSpace | Space | Dot.

Definition in_class (k : char_class) (c : ascii) : bool :=
  match k with
  | NonSpace => negb (is_space c)
  | Space => is_space c
  | Dot => negb (Ascii.eqb c LF)
  end.

(** Greedy [k*] with backtracking: the longest run is tried first; [cont]
    gets the matched text and the rest of the input. *)
Fixpoint re_star {X} (k : char_class) (s : string)
    (cont : string -> string -> option X) : option X :=
  match s with
  | String c s' =>
      if in_class k c then
        match re_star k s' (fun m rest => cont (String c m) rest) with
        | Some r => Some r
        | None => cont EmptyString s
        end
      else cont EmptyString s
  | EmptyString => cont EmptyString EmptyString
  end.

(** Greedy [k+]. *)
Definition re_plus {X} (k : char_class) (s : string)
    (cont : string -> string -> option X) : option X :=
  match s with
  | String c s' =>
      if in_class k c then re_star k s' (fun m rest => cont (String c m) rest)
      else None
  | EmptyString => None
  end.

(** [$] without [re.M]: the end of the input, or just before a final LF. *)
Definition re_eol (s : string) : bool :=
  match s with
  | EmptyString => true
  | String c EmptyString => Ascii.eqb c LF
  | _ => false
  end.

(** [re.match] of [instr] against the pattern
      (?P<action>\S+)\s+(?P<operand>\S+)(\s+(?P<summary>.STAR))?$
    where STAR is the star: the groups [action], [operand] and [summary]. *)
Definition match_todo_entry (instr : bytes)
  : option (bytes * bytes * option bytes) :=
  re_plus NonSpace instr (fun action r1 =>
  re_plus Space r1 (fun _ r2 =>
  re_plus NonSpace r2 (fun operand r3 =>
    match
      re_plus Space r3 (fun _ r4 =>
      re_star Dot r4 (fun summary r5 =>
        if re_eol r5 then Some (action, operand, Some summary) else None))
    with
    | Some m => Some m
    | None => if re_eol r3 then Some (action, operand, None) else None
    end))).

Definition parse_step (repo : Repository) (instr : bytes)
  : result (CommitStep + CommitlessStep) :=
  match match_todo_entry instr with
  | None => Raise (ValueError (MalformedTodoEntry (decode_lossy repo instr)))
  | Some (action, operand, summary) =>
      action ← parse_action (decode_lossy repo action);
      match action with
      | inr action => Ok (inr {| extra_action := action; operand := operand |})
      | inl action =>
          commit ← call (get_commit repo (decode_lossy repo operand));
          let step := new_CommitStep action commit in
          match summary with
          | Some summary =>
              Ok (inl (set_message step
                         (message_with_edited_summary repo commit summary)))
          | None => Ok (inl step)
          end
      end
  end.

(** ** Presentation bridge *)

Definition marker : bytes := "++ ".
Definition newline : bytes := String LF EmptyString.

(** [re.split] on the pattern ^\+\+ followed by a space, with [re.M]: [bol] tells whether the
    position is at the start of a line, [cur] is the piece being read. *)
Fixpoint re_split_marker_go (bol : bool) (cur s : string) : list string :=
  match s with
  | EmptyString => [cur]
  | String c s' =>
      match s' with
      | String c2 (String c3 rest) =>
          if bol && Ascii.eqb c "+" && Ascii.eqb c2 "+" && Ascii.eqb c3 SP
          then cur :: re_split_marker_go false EmptyString rest
          else re_split_marker_go (Ascii.eqb c LF) (snoc cur c) s'
      | _ => re_split_marker_go (Ascii.eqb c LF) (snoc cur c) s'
      end
  end.
Definition re_split_marker (response : bytes) : list bytes :=
  re_split_marker_go true EmptyString response.

Definition serialize_msgedit (repo : Repository) (todos : list CommitStep)
  : list bytes :=
  todos ≫= fun step =>
    ((CommitStep_str repo step +:+ newline) +:+ message (commit step))
    :: (to_bytes <$> extrasteps step).

Definition msgedit_text (serialized_todos : list bytes) : bytes :=
  join ((fun x => (marker +:+ x) +:+ newline) <$> serialized_todos).

(** One block of the response of the message editor. *)
Definition parse_block (repo : Repository) (full : bytes)
  : result (CommitStep + CommitlessStep) :=
  match split1 full LF with
  | [cmd; message] =>
      polystep ← parse_step repo (strip cmd);
      match polystep with
      | inl step => Ok (inl (set_message step (strip message +:+ newline)))
      | inr extra => Ok (inr extra)
      end
  | _ => Raise (ValueError UnpackMismatch)
  end.

Definition edit_todos_msgedit (repo : Repository) (todos : list CommitStep)
    (presentation_order_head_on_top : bool)
  : result (list (CommitStep + CommitlessStep)) :=
  let serialized_todos := serialize_msgedit repo todos in
  let serialized_todos :=
    if presentation_order_head_on_top then reverse serialized_todos
    else serialized_todos in
  let todos_text := msgedit_text serialized_todos in
  (* Invoke the editors to parse commit messages. *)
  response ← call (run_editor repo todos_text (length todos));
  (* Minimal parsing into a common format *)
  mapM (parse_block repo) (tail (re_split_marker response)).

Definition serialize_linewise (repo : Repository) (todos : list CommitStep)
  : list bytes :=
  todos ≫= fun step =>
    ((CommitStep_str repo step +:+ " ") +:+ summary (commit step))
    :: (to_bytes <$> extrasteps step).

Definition linewise_text (serialized_todos : list bytes) : bytes :=
  join ((fun x => x +:+ newline) <$> serialized_todos).

Definition edit_todos_linewise (repo : Repository) (todos : list CommitStep)
    (presentation_order_head_on_top : bool)
  : result (list (CommitStep + CommitlessStep)) :=
  let serialized_todos := serialize_linewise repo todos in
  let serialized_todos :=
    if presentation_order_head_on_top then reverse serialized_todos
    else serialized_todos in
  let todos_text := linewise_text serialized_todos in
  response ← call (run_sequence_editor repo todos_text (length todos));
  (* Minimal parsing into a common format *)
  mapM (fun line => parse_step repo (strip line))
       (filter (fun line => isspace line = false) (splitlines response)).

(** [result[-1].extrasteps.append(polystep)]. *)
Fixpoint append_to_last (result : list CommitStep) (extra : CommitlessStep)
  : list CommitStep :=
  match result with
  | [] => []
  | [step] => [append_extrastep step extra]
  | step :: result' => step :: append_to_last result' extra
  end.

(** The body of the re-association loop of [edit_todos]. *)
Definition reassociate (result_ : list CommitStep)
    (polystep : CommitStep + CommitlessStep) : result (list CommitStep) :=
  match polystep with
  | inl step => Ok (result_ ++ [step])
  | inr extra =>
      if decide (length result_ = 0) then Raise (ValueError NoBaseCommit)
      else Ok (append_to_last result_ extra)
  end.

Definition edit_todos (repo : Repository) (todos : list CommitStep)
    (msgedit : bool) : result (list CommitStep) :=
  let presentation_order_head_on_top := head_on_top repo in
  polymorphic_steps ←
    (if msgedit
     then edit_todos_msgedit repo todos presentation_order_head_on_top
     else edit_todos_linewise repo todos presentation_order_head_on_top);
  let polymorphic_steps :=
    if presentation_order_head_on_top then reverse polymorphic_steps
    else polymorphic_steps in
  result_ ← foldM reassociate polymorphic_steps [];
  _ ← validate_todos repo todos result_;
  Ok result_.


(** The text handed to the editor for [todos]. *)
Definition editor_text (repo : Repository) (todos : list CommitStep)
    (msgedit flag : bool) : bytes :=
  if msgedit
  then msgedit_text
         (if flag then reverse (serialize_msgedit repo todos)
          else serialize_msgedit repo todos)
  else linewise_text
         (if flag then reverse (serialize_linewise repo todos)
          else serialize_linewise repo todos).

(** The editor hands back what it was given. *)
Definition editor_returns_unchanged (repo : Repository)
    (todos : list CommitStep) (msgedit : bool) : Prop :=
  ∀ flag,
    (if msgedit then run_editor repo else run_sequence_editor repo)
      (editor_text repo todos msgedit flag) (length todos)
    = inr (editor_text repo todos msgedit flag).

(** *** Entries that come back from the editor as one entry *)

(** No LF and no CR: the text is one line for [splitlines]. *)
Fixpoint no_linebreak (s : string) : bool :=
  match s with
  | EmptyString => true
  | String c s' => negb (Ascii.eqb c LF) && negb (Ascii.eqb c CR) && no_linebreak s'
  end.

(** The marker stands at the head of [s], which starts a line when [bol]. *)
Definition is_marker_at (bol : bool) (s : string) : bool :=
  match s with
  | String c (String c2 (String c3 _)) =>
      bol && Ascii.eqb c "+" && Ascii.eqb c2 "+" && Ascii.eqb c3 SP
  | _ => false
  end.

Fixpoint marker_free_go (bol : bool) (s : string) : bool :=
  match s with
  | EmptyString => true
  | String c s' => negb (is_marker_at bol s) && marker_free_go (Ascii.eqb c LF) s'
  end.

(** No line of [entry] after its first one begins with the marker. *)
Definition marker_free (entry : bytes) : bool := marker_free_go false entry.

(** The entries serialized for [todos] are such entries. *)
Definition plain_entries (repo : Repository) (todos : list CommitStep)
    (msgedit : bool) : Prop :=
  if msgedit
  then Forall (fun entry => marker_free entry = true)
              (serialize_msgedit repo todos)
  else Forall (fun entry => no_linebreak entry = true)
              (serialize_linewise repo todos).

(** What comes back from the editor, entry by entry. *)
Definition parse_entry (repo : Repository) (msgedit : bool) (entry : bytes)
  : result (CommitStep + CommitlessStep) :=
  if msgedit then parse_block repo (entry +:+ newline)
  else parse_step repo (strip entry).

Definition entries (repo : Repository) (todos : list CommitStep)
    (msgedit : bool) : list bytes :=
  if msgedit then serialize_msgedit repo todos
  else filter (fun line => isspace line = false) (serialize_linewise repo todos).


(** ** Executor *)

(** What one call of [Commit.rebase] was given: the commit, the new parent
    and the tree to keep. *)
Record rebase_call := {
  rebased_commit : Oid;
  onto : option Oid;
  tree_to_keep : option Oid;
}.

(** The variables of [apply_todos] and what it acts on: the branch heads that
    [update_head] moves, the progress lines printed, and the calls made to
    the rebase collaborator, oldest first. *)
Record exec_state := {
  current : option Commit;
  applied_old_commits : gset Oid;
  applied_new_commits : gset Oid;
  refs : gmap bytes Oid;
  printed : list string;
  rebase_calls : list rebase_call;
}.

(** How one iteration of the loop ends. *)
Inductive outcome :=
| Continue (st : exec_state)
| Break (st : exec_state)
| Raised (e : exn) (st : exec_state).

(** Modelled from the spec: [update_head] of [utils] on the ref named by the
    operand; it repoints the branch to the given commit. *)
Definition update_head (refs_ : gmap bytes Oid) (ref : bytes) (new : Commit)
  : gmap bytes Oid :=
  <[ref := oid new]> refs_.

(** The format [{value:6}]: left-justified in six columns. *)
Fixpoint spaces (n : nat) : string :=
  match n with
  | O => EmptyString
  | S n' => String SP (spaces n')
  end.
Definition ljust (width : nat) (s : string) : string :=
  s +:+ spaces (width - String.length s).

Definition progress_line (repo : Repository) (step : CommitStep)
    (current_ : Commit) : string :=
  (((ljust 6 (CommitAction_value (action step)) +:+ " ")
    +:+ Oid_short repo (oid current_)) +:+ "  ")
  +:+ decode_lossy repo (summary current_).

(** The transition by action; [Ok None] is the [break] of [index]. *)
Definition transition (repo : Repository) (current_ : option Commit)
    (step : CommitStep) (rebased : Commit) : result (option Commit) :=
  match action step with
  | PICK => Ok (Some rebased)
  | FIXUP =>
      match current_ with
      | None => Raise (ValueError FixupFirst)
      | Some cur => Ok (Some (update repo cur (Some (tree_oid rebased)) None None))
      end
  | REWORD => c ← call (edit_commit_message repo rebased); Ok (Some c)
  | SQUASH =>
      match current_ with
      | None => Raise (ValueError SquashFirst)
      | Some cur =>
          let fused :=
            (message cur +:+ (newline +:+ newline)) +:+ message rebased in
          c ← call (edit_commit_message repo
                      (update repo cur (Some (tree_oid rebased)) (Some fused)
                              None));
          Ok (Some c)
      end
  | CUT => c ← call (cut_commit repo rebased); Ok (Some c)
  | INDEX => Ok None
  end.

(** The loop over [step.significant_extrasteps()]. *)
Definition apply_extrastep (current_ : Commit) (refs_ : gmap bytes Oid)
    (extrastep : CommitlessStep) : result (gmap bytes Oid) :=
  if decide (extra_action extrastep = UPDATE_REF)
  then Ok (update_head refs_ (operand extrastep) current_)
  else Raise (ValueError UnhandledAction).

Definition set_current (st : exec_state) (c : option Commit) : exec_state :=
  {| current := c;
     applied_old_commits := applied_old_commits st;
     applied_new_commits := applied_new_commits st;
     refs := refs st; printed := printed st;
     rebase_calls := rebase_calls st |}.

(** The first statements of the loop body: both identities are added to the
    touched sets and the tree to keep is chosen. *)
Definition deja_vu (st : exec_state) (known_state step : CommitStep) : bool :=
  bool_decide ({[oid (commit step)]} ∪ applied_new_commits st
               = {[oid (commit known_state)]} ∪ applied_old_commits st).

Definition tree_to_keep_for (st : exec_state) (known_state step : CommitStep)
  : option Oid :=
  if deja_vu st known_state step then Some (tree_oid (commit known_state))
  else None.

(** The state when [Commit.rebase] is called for [step]. *)
Definition begin_step (st : exec_state) (known_state step : CommitStep)
  : exec_state :=
  {| current := current st;
     applied_old_commits := {[oid (commit known_state)]} ∪ applied_old_commits st;
     applied_new_commits := {[oid (commit step)]} ∪ applied_new_commits st;
     refs := refs st; printed := printed st;
     rebase_calls :=
       rebase_calls st ++
       [{| rebased_commit := oid (commit step);
           onto := oid <$> current st;
           tree_to_keep := tree_to_keep_for st known_state step |}] |}.

(** The body of the loop of [apply_todos] from the answer of
    [step.commit.rebase(current, tree_to_keep)] on: [st] is the state when
    the call was made, [answer] what the call gave. *)
Definition after_rebase (repo : Repository) (reauthor : bool) (st : exec_state)
    (step : CommitStep) (answer_ : answer Commit) : outcome :=
  match answer_ with
  | inl e => Raised (External e) st
  | inr r =>
      let rebased := update repo r None (Some (step_message step)) None in
      match transition repo (current st) step rebased with
      | Raise e => Raised e st
      | Ok None => Break st
      | Ok (Some cur) =>
          let cur :=
            if reauthor
            then update repo cur None None (Some (default_author repo))
            else cur in
          let st := set_current st (Some cur) in
          match foldM (apply_extrastep cur) (significant_extrasteps step)
                      (refs st) with
          | Raise e => Raised e st
          | Ok refs_ =>
              Continue
                {| current := Some cur;
                   applied_old_commits := applied_old_commits st;
                   applied_new_commits := applied_new_commits st;
                   refs := refs_;
                   printed := printed st ++ [progress_line repo step cur];
                   rebase_calls := rebase_calls st |}
          end
      end
  end.

(** The body of the loop of [apply_todos]. *)
Definition apply_step (repo : Repository) (reauthor : bool) (st : exec_state)
    (known_state step : CommitStep) : outcome :=
  (* Avoid making the user resolve the same conflict twice *)
  let tree_to_keep_ := tree_to_keep_for st known_state step in
  let st := begin_step st known_state step in
  after_rebase repo reauthor st step
    (rebase repo (commit step) (current st) tree_to_keep_).

(** The loop of [apply_todos] over the paired steps. *)
Fixpoint apply_loop (repo : Repository) (reauthor : bool) (st : exec_state)
    (pairs : list (CommitStep * CommitStep)) : outcome :=
  match pairs with
  | [] => Continue st
  | (known_state, step) :: pairs' =>
      match apply_step repo reauthor st known_state step with
      | Continue st' => apply_loop repo reauthor st' pairs'
      | o => o
      end
  end.

Definition initial_state (current_ : option Commit) (refs_ : gmap bytes Oid)
  : exec_state :=
  {| current := current_; applied_old_commits := ∅; applied_new_commits := ∅;
     refs := refs_; printed := []; rebase_calls := [] |}.

Definition final_state (o : outcome) : exec_state :=
  match o with
  | Continue st | Break st | Raised _ st => st
  end.

(** [apply_todos]: what it returns or raises, with the state it leaves. *)
Definition apply_todos (repo : Repository) (current_ : option Commit)
    (todos_original todos_edited : list CommitStep) (reauthor : bool)
    (refs_ : gmap bytes Oid) : result Commit * exec_state :=
  match
    apply_loop repo reauthor (initial_state current_ refs_)
               (zip todos_original todos_edited)
  with
  | Raised e st => (Raise e, st)
  | Continue st | Break st =>
      match current st with
      | None => (Raise (ValueError NoCommitsIntroduced), st)
      | Some c => (Ok c, st)
      end
  end.

(** The identities of the first [n] steps of a plan. *)
Definition touched (plan : list CommitStep) (n : nat) : gset Oid :=
  oid_set (take n plan).

(** ** A small repository

    The data the closed statements at the end of the file are about: three
    commits on top of a root, where the third brings back the tree of the
    first, an object store that holds them, and collaborators that do the
    least: the editors hand back their text, the rebase keeps the tree it is
    told to keep (or else the tree of the commit) and sets the parent. *)

Fixpoint repeat_char (n : nat) (c : ascii) : string :=
  match n with
  | O => EmptyString
  | S n' => String c (repeat_char n' c)
  end.

(** Identities and trees, written as forty hexadecimal digits. *)
Definition hex40 (c : ascii) : Oid := repeat_char 40 c.

Definition author_ : bytes := "A U Thor <author@example.com>".

Definition root_commit : Commit :=
  {| oid := hex40 "0"; tree_oid := hex40 "9"; parent_oids := [];
     message := "root" +:+ newline; author := author_ |}.
Definition commit_A : Commit :=
  {| oid := hex40 "a"; tree_oid := hex40 "1"; parent_oids := [hex40 "0"];
     message := "commit one" +:+ newline; author := author_ |}.
Definition commit_B : Commit :=
  {| oid := hex40 "b"; tree_oid := hex40 "2"; parent_oids := [hex40 "a"];
     message := "commit two" +:+ newline; author := author_ |}.
Definition commit_C : Commit :=
  {| oid := hex40 "c"; tree_oid := hex40 "1"; parent_oids := [hex40 "b"];
     message := "Revert commit two" +:+ newline; author := author_ |}.

(** A commit whose message has a line that begins with the marker. *)
Definition commit_M : Commit :=
  {| oid := hex40 "d"; tree_oid := hex40 "3"; parent_oids := [hex40 "a"];
     message := ("commit with a marker" +:+ newline)
                +:+ ("++ update-ref refs/heads/topic" +:+ newline);
     author := author_ |}.

(** The commit whose message is the bare fixup prefix and a line end. *)
Definition bare_fixup_commit : Commit :=
  {| oid := hex40 "f"; tree_oid := hex40 "7"; parent_oids := [hex40 "a"];
     message := fixup_prefix +:+ newline; author := author_ |}.

Definition example_store : list Commit :=
  [root_commit; commit_A; commit_B; commit_C; commit_M; bare_fixup_commit].

Definition example_load (o : Oid) : answer Commit :=
  match find (fun c => bool_decide (oid c = o)) example_store with
  | Some c => inr c
  | None => inl MissingObject
  end.

(** A commit is named by a non-empty prefix of its identity. *)
Definition example_get_commit (ref : string) : answer Commit :=
  match
    find (fun c => negb (bool_decide (ref = EmptyString)) && startswith (oid c) ref)
         example_store
  with
  | Some c => inr c
  | None => inl (ExternalValueError "unknown commit")
  end.

Definition example_hash (tree : Oid) (parents_ : list Oid) (msg auth : bytes)
  : Oid :=
  ((tree +:+ join parents_) +:+ msg) +:+ auth.

Definition example_rebase (c : Commit) (parent : option Commit)
    (keep : option Oid) : answer Commit :=
  let tree := default (tree_oid c) keep in
  let parents_ := option_list (oid <$> parent) in
  inr {| oid := example_hash tree parents_ (message c) (author c);
         tree_oid := tree; parent_oids := parents_;
         message := message c; author := author c |}.

(** The summary line replaced, the rest of the message kept. *)
Definition example_edited_summary (c : Commit) (new_summary : bytes) : bytes :=
  match split1 (message c) LF with
  | [_; body] => (new_summary +:+ newline) +:+ body
  | _ => new_summary +:+ newline
  end.

Definition example_repo (show_ref worktrees : bytes) : Repository :=
  {| Oid_fromhex := fun sha => inr sha;
     Oid_short := fun o => String.substring 0 12 o;
     git_show_ref := inr show_ref;
     git_worktree_list := inr worktrees;
     get_commit := example_get_commit;
     head_on_top := false;
     default_author := "C O Mitter <committer@example.com>";
     load_commit := example_load;
     commit_hash := example_hash;
     rebase := example_rebase;
     message_with_edited_summary := example_edited_summary;
     decode_lossy := fun b => b;
     run_editor := fun text _ => inr text;
     run_sequence_editor := fun text _ => inr text;
     edit_commit_message := fun c => inr c;
     cut_commit := fun c => inr c |}.

(** One worktree, the main one, with [master] checked out; [master] points
    at [commit_B] and the tag [v1] at [commit_A]. *)
Definition main_worktree_only : bytes :=
  ((("worktree /home/user/project" +:+ newline)
    +:+ (("HEAD " +:+ hex40 "b") +:+ newline))
   +:+ "branch refs/heads/master").
Definition master_and_tag : bytes :=
  (((hex40 "b" +:+ " refs/heads/master") +:+ newline)
   +:+ (hex40 "a" +:+ " refs/tags/v1")).

Definition repo0 : Repository := example_repo master_and_tag main_worktree_only.

Definition pick_A : CommitStep := new_CommitStep PICK commit_A.
Definition pick_B : CommitStep := new_CommitStep PICK commit_B.
Definition pick_C : CommitStep := new_CommitStep PICK commit_C.
Definition fixup_B : CommitStep := new_CommitStep FIXUP commit_B.
Definition index_B : CommitStep := new_CommitStep INDEX commit_B.

(** An index step that carries an update-ref extra step. *)
Definition index_B_with_ref : CommitStep :=
  append_extrastep (new_CommitStep INDEX commit_B)
    {| extra_action := UPDATE_REF; operand := "refs/heads/topic" |}.

(** The executor about to take a fixup of [commit_B] onto [commit_A]. *)
Definition on_commit_A : exec_state := initial_state (Some commit_A) ∅.

(** What the example rebase of [commit_B] onto [commit_A] returns there. *)
Definition commit_B_rebased : Commit :=
  let tree :=
    default (tree_oid commit_B) (tree_to_keep_for on_commit_A pick_B fixup_B) in
  {| oid := example_hash tree [oid commit_A] (message commit_B) (author commit_B);
     tree_oid := tree; parent_oids := [oid commit_A];
     message := message commit_B; author := author commit_B |}.

(** *** The claims that the code does not bear out, as they are stated *)

(** Once the touched sets differ after a step, that step and every later
    step that is run call the rebase with no tree to keep: the iteration is
    the rest of the loop body on the answer of that call. *)
Definition deja_vu_never_comes_back (repo : Repository)
    (current_ : option Commit) (todos_original todos_edited : list CommitStep)
    : Prop :=
  ∀ i j known_state step st,
    i ≤ j →
    touched todos_edited (S i) ≠ touched todos_original (S i) →
    zip todos_original todos_edited !! j = Some (known_state, step) →
    apply_loop repo false (initial_state current_ ∅)
               (take j (zip todos_original todos_edited)) = Continue st →
    apply_step repo false st known_state step
    = after_rebase repo false (begin_step st known_state step) step
        (rebase repo (commit step) (current st) None).

(** *** What the walk discards *)


(** *** The claim on contiguous bubbles, as it is stated *)



(** *** More of the small repository *)

Definition pick_root : CommitStep := new_CommitStep PICK root_commit.

(** An empty commit on top of [commit_A]: it has the tree of its parent. *)
Definition commit_E : Commit :=
  {| oid := hex40 "e"; tree_oid := hex40 "1"; parent_oids := [hex40 "a"];
     message := "empty commit" +:+ newline; author := author_ |}.
Definition pick_E : CommitStep := new_CommitStep PICK commit_E.

(** A commit made to fix up [commit_B]: its summary is the fixup prefix and
    the summary of [commit_B]. *)
Definition fixup_of_B : Commit :=
  {| oid := hex40 "8"; tree_oid := hex40 "4"; parent_oids := [hex40 "c"];
     message := (fixup_prefix +:+ "commit two") +:+ newline; author := author_ |}.
Definition pick_fixup_of_B : CommitStep := new_CommitStep PICK fixup_of_B.

(** ** Equality of steps *)

(** [CommitlessStep.__eq__]. *)
Definition CommitlessStep_eq (a b : CommitlessStep) : bool :=
  bool_decide (extra_action a = extra_action b)
  && bool_decide (operand a = operand b).

(** [==] on two Python lists: same length and equal elements. *)
Fixpoint list_eq {A} (eq : A -> A -> bool) (l k : list A) : bool :=
  match l, k with
  | [], [] => true
  | x :: l', y :: k' => eq x y && list_eq eq l' k'
  | _, _ => false
  end.

(** [CommitStep.__eq__]. *)
Definition CommitStep_eq (a b : CommitStep) : bool :=
  bool_decide (action a = action b)
  && Commit_eqb (commit a) (commit b)
  && bool_decide (step_message a = step_message b)
  && list_eq CommitlessStep_eq (significant_extrasteps a)
             (significant_extrasteps b).

(** ** Runs of a character class *)

(** Every byte of [s] is in the class [k]. *)
Fixpoint all_in (k : char_class) (s : string) : bool :=
  match s with
  | EmptyString => true
  | String c s' => in_class k c && all_in k s'
  end.

(** [s] is empty or begins with a byte outside the class [k]: a run of [k]
    cannot go on into [s]. *)
Definition starts_outside (k : char_class) (s : string) : bool :=
  match s with
  | EmptyString => true
  | String c _ => negb (in_class k c)
  end.

(** A non-empty run of the class [k]. *)
Definition is_run (k : char_class) (s : string) : bool :=
  negb (bool_decide (s = EmptyString)) && all_in k s.

(** A pick of [commit_B] that carries an update-ref extra step and a
    comment. *)
Definition pick_B_with_refs : CommitStep :=
  append_extrastep
    (append_extrastep pick_B
       {| extra_action := UPDATE_REF; operand := "refs/heads/topic" |})
    {| extra_action := COMMENT; operand := "refs/tags/v2" |}.

(** ** Steps that are read back as written *)

(** A step as [parse_step] makes it: no extra step is attached yet. *)
Definition bare (step : CommitStep) : CommitStep :=
  {| action := action step; commit := commit step;
     step_message := step_message step; extrasteps := [] |}.

(** The entries written for [step] are read back as the step without its
    extra steps, followed by its extra steps. *)
Definition reads_back (repo : Repository) (msgedit : bool) (step : CommitStep)
  : Prop :=
  mapM (parse_entry repo msgedit) (entries repo [step] msgedit)
  = Ok (inl (bare step) :: (inr <$> extrasteps step)).

(** The small repository with editors that answer [response] whatever
    they are given. *)
Definition repo_answering (response : bytes) : Repository :=
  {| Oid_fromhex := Oid_fromhex repo0; Oid_short := Oid_short repo0;
     git_show_ref := git_show_ref repo0;
     git_worktree_list := git_worktree_list repo0;
     get_commit := get_commit repo0; head_on_top := head_on_top repo0;
     default_author := default_author repo0; load_commit := load_commit repo0;
     commit_hash := commit_hash repo0; rebase := rebase repo0;
     message_with_edited_summary := message_with_edited_summary repo0;
     decode_lossy := decode_lossy repo0;
     run_editor := fun _ _ => inr response;
     run_sequence_editor := fun _ _ => inr response;
     edit_commit_message := edit_commit_message repo0;
     cut_commit := cut_commit repo0 |}.

(** A message editor that answers one line, a block with no line end. *)
Definition repo_one_line : Repository :=
  repo_answering (marker +:+ "pick aaaaaaaaaaaa").

(** A sequence editor that answers with an update-ref line on top. *)
Definition repo_ref_on_top : Repository :=
  repo_answering
    (("update-ref refs/heads/topic" +:+ newline)
     +:+ ("pick aaaaaaaaaaaa commit one" +:+ newline)).

(** A ref listing whose second line has no space. *)
Definition repo_broken_listing : Repository :=
  example_repo
    (((hex40 "b" +:+ " refs/heads/master") +:+ newline)
     +:+ "no-space-on-this-line")
    main_worktree_only.

(** * Properties *)

Lemma first_return_Some {A} (p : A -> bool) l a :
  first_return (fun x => if p x then Some x else None) l = Some a ↔
  ∃ before after, l = before ++ a :: after ∧ p a = true ∧
                  ∀ b, b ∈ before → p b = false.
Proof.
  induction l as [|x l IH]; simpl.
  - split; [done|]. intros (before & after & E & _). by destruct before.
  - destruct (p x) eqn:Hx.
    + split.
      * intros [= <-]. exists [], l. split_and!; [done..|].
        intros b Hb. by apply elem_of_nil in Hb.
      * intros ([|y before] & after & E & Ha & Hb); simplify_eq/=; [done|].
        rewrite Hb in Hx; [done|]. apply elem_of_cons; auto.
    + rewrite IH. split.
      * intros (before & after & -> & Ha & Hb).
        exists (x :: before), after. split_and!; [done..|].
        intros b [->|?]%elem_of_cons; auto.
      * intros ([|y before] & after & E & Ha & Hb); simplify_eq/=.
        { congruence. }
        exists before, after. split_and!; [done..|].
        intros b ?. apply Hb, elem_of_cons; auto.
Qed.

Lemma first_return_None {A} (p : A -> bool) l :
  first_return (fun x => if p x then Some x else None) l = None ↔
  ∀ b, b ∈ l → p b = false.
Proof.
  induction l as [|x l IH]; simpl.
  - split; [|done]. intros _ b Hb. by apply elem_of_nil in Hb.
  - destruct (p x) eqn:Hx.
    + split; [done|]. intros H. rewrite H in Hx; [done|]. left.
    + rewrite IH. split.
      * intros H b [->|?]%elem_of_cons; auto.
      * intros H b ?. apply H. by right.
Qed.

(** The two nested loops of [parse_action] scan [declared_order]. *)
Lemma parse_action_scan instr :
  parse_action instr =
  match
    first_return
      (fun a => if startswith (Action_value a) instr then Some a else None)
      declared_order
  with
  | Some a => Ok a
  | None => Raise (ValueError (UnrecognizedAction instr))
  end.
Proof.
  unfold parse_action, declared_order; simpl.
  repeat
    match goal with
    | |- context [startswith ?n instr] => destruct (startswith n instr); try done
    end.
Qed.

(** C7. [parse_action] is a function of its input; it returns the first
    action, in declared order (pick, fixup, squash, reword, cut, index, then
    #, update-ref), whose canonical name starts with the input, and it raises
    the [ValueError] for an unrecognized action exactly when no canonical name
    starts with the input. *)
Theorem parse_action_first_declared_match (instr : string) :
  (∀ a, parse_action instr = Ok a ↔ first_declared_match instr a) ∧
  ((∃ e, parse_action instr = Raise e) ↔
   (∀ a, a ∈ declared_order → startswith (Action_value a) instr = false)) ∧
  (∀ e, parse_action instr = Raise e →
        e = ValueError (UnrecognizedAction instr)).
Proof.
  rewrite parse_action_scan. split_and!.
  - intros a. unfold first_declared_match.
    rewrite <- (first_return_Some (fun a => startswith (Action_value a) instr)).
    destruct (first_return _ _); split; congruence.
  - rewrite <- (first_return_None (fun a => startswith (Action_value a) instr)).
    destruct (first_return _ _); split; try done.
    + by intros [e ?].
    + eauto.
  - intros e. destruct (first_return _ _); congruence.
Qed.

(** ** The result monad *)

Lemma call_Ok {A} (r : answer A) a : call r = Ok a ↔ r = inr a.
Proof. destruct r; simpl; split; congruence. Qed.

Lemma bind_Ok {A B} (m : result A) (k : A -> result B) b :
  m ≫= k = Ok b ↔ ∃ a, m = Ok a ∧ k a = Ok b.
Proof.
  destruct m as [a|e]; simpl; split.
  - eauto.
  - by intros (a' & [= <-] & ?).
  - done.
  - by intros (a' & ? & _).
Qed.

Lemma mapM_app {A B} (f : A -> result B) l1 l2 ys :
  mapM f (l1 ++ l2) = Ok ys ↔
  ∃ ys1 ys2, mapM f l1 = Ok ys1 ∧ mapM f l2 = Ok ys2 ∧ ys = ys1 ++ ys2.
Proof.
  revert ys. induction l1 as [|x l1 IH]; intros ys; simpl.
  - split.
    + intros H. by exists [], ys.
    + by intros (ys1 & ys2 & [= <-] & ? & ->).
  - destruct (f x) as [y|e]; simpl.
    + rewrite bind_Ok. split.
      * intros (zs & Hz & [= <-]).
        apply IH in Hz as (ys1 & ys2 & H1 & H2 & ->).
        exists (y :: ys1), ys2. by rewrite H1.
      * intros (ys1' & ys2 & H1 & H2 & ->).
        apply bind_Ok in H1 as (ys1 & H1 & [= <-]).
        exists (ys1 ++ ys2). split; [|done]. apply IH. eauto.
    + split; [done|]. by intros (? & ? & ? & _).
Qed.

(** ** Plan builder *)

Lemma split1_go_shape sep cur s :
  (∃ a, split1_go sep cur s = [a]) ∨ (∃ a b, split1_go sep cur s = [a; b]).
Proof.
  revert cur. induction s as [|c s IH]; intros cur; simpl; [eauto|].
  destruct (Ascii.eqb c sep); eauto.
Qed.

Lemma outchecked_line_Ok outchecked line s :
  outchecked_line outchecked line = Ok s →
  s = match line_branch line with
      | Some val => {[val]} ∪ outchecked
      | None => outchecked
      end.
Proof.
  unfold outchecked_line, line_branch, split1.
  destruct (split1_go_shape SP EmptyString line) as [[a ->]|(a & b & ->)];
    case_decide; congruence.
Qed.

Lemma outchecked_lines_Ok lines outchecked s :
  foldM outchecked_line lines outchecked = Ok s →
  ∀ b, b ∈ s ↔ b ∈ outchecked ∨ b ∈ omap line_branch lines.
Proof.
  revert outchecked. induction lines as [|line lines IH]; intros oc; simpl.
  - intros [= <-] b. set_solver.
  - intros (s1 & H1%outchecked_line_Ok & H2)%bind_Ok b.
    rewrite (IH _ H2), H1.
    destruct (line_branch line); set_solver.
Qed.

Lemma find_outchecked_Ok out s :
  find_outchecked out = Ok s →
  ∀ b, b ∈ s ↔ b ∈ checked_out_in (worktree_records out).
Proof.
  unfold find_outchecked, worktree_records.
  generalize (split out (String LF (String LF EmptyString))). intros records.
  assert (∀ s0, foldM (fun outchecked record =>
              foldM outchecked_line (split record (String LF EmptyString))
                    outchecked) records s0 = Ok s →
            ∀ b, b ∈ s ↔ b ∈ s0 ∨ b ∈ checked_out_in records) as H.
  { induction records as [|record records IH]; intros s0; simpl.
    - intros [= <-] b. unfold checked_out_in. set_solver.
    - intros (s1 & H1 & H2)%bind_Ok b.
      rewrite (IH _ H2), (outchecked_lines_Ok _ _ _ H1).
      unfold checked_out_in. simpl. rewrite elem_of_app. tauto. }
  intros Hs b. rewrite (H _ Hs). set_solver.
Qed.

Lemma refs_pointing_at_app es1 es2 o :
  refs_pointing_at (es1 ++ es2) o =
  refs_pointing_at es1 o ++ refs_pointing_at es2 o.
Proof. unfold refs_pointing_at. by rewrite filter_app, fmap_app. Qed.

Lemma commit_refs_fold repo lines m0 m :
  foldM (fun commit_refs line =>
           '(o, refname) ← show_ref_line repo line;
           Ok (commit_refs_append commit_refs o refname)) lines m0 = Ok m →
  ∃ entries,
    mapM (show_ref_line repo) lines = Ok entries ∧
    ∀ o, default [] (m !! o) =
         default [] (m0 !! o) ++ refs_pointing_at entries o.
Proof.
  revert m0. induction lines as [|line lines IH]; intros m0; simpl.
  - intros [= <-]. exists []. split; [done|]. intros o. by rewrite app_nil_r.
  - intros (m1 & H1 & H2)%bind_Ok.
    apply bind_Ok in H1 as ([o1 refname] & Hline & [= <-]).
    destruct (IH _ H2) as (entries & Hentries & Hm).
    exists ((o1, refname) :: entries). rewrite Hline, Hentries. split; [done|].
    intros o. rewrite Hm. unfold commit_refs_append.
    change ((o1, refname) :: entries) with ([(o1, refname)] ++ entries).
    rewrite refs_pointing_at_app, app_assoc. f_equal.
    unfold refs_pointing_at. rewrite filter_cons, filter_nil. simpl.
    destruct (decide (o1 = o)) as [->|Hne].
    + by rewrite lookup_insert_eq.
    + rewrite lookup_insert_ne by done. by rewrite app_nil_r.
Qed.

Lemma annotate_ref_fold outchecked refs step :
  commit (foldl (annotate_ref outchecked) step refs) = commit step ∧
  extrasteps (foldl (annotate_ref outchecked) step refs) =
  extrasteps step ++
  ((fun ref =>
      {| extra_action :=
           if startswith ref branch_prefix && bool_decide (ref ∉ outchecked)
           then UPDATE_REF else COMMENT;
         operand := ref |}) <$> refs).
Proof.
  revert step. induction refs as [|ref refs IH]; intros step; simpl.
  - by rewrite app_nil_r.
  - destruct (IH (annotate_ref outchecked step ref)) as [-> ->].
    simpl. by rewrite <- app_assoc.
Qed.

(** C5, as the code has it. Every step that [build_todos] returns carries,
    for each ref of the [show-ref] listing that points at its commit and in
    listing order, exactly one extra step, and no other: [update-ref] with
    the ref name as operand when the ref starts with refs/heads/ and is not
    checked out in any worktree of the worktree listing (the main worktree
    included), and a [#] comment with the same ref name otherwise. *)
Theorem build_todos_annotates_refs repo commits index steps :
  build_todos repo commits index = Ok steps →
  commit <$> steps = commits ++ option_list index ∧
  annotated_by repo (fun records => records) steps.
Proof.
  unfold build_todos.
  intros (refs_out & Hrefs%call_Ok & H)%bind_Ok.
  apply bind_Ok in H as (commit_refs & Hcr & H).
  apply bind_Ok in H as (wt_out & Hwt%call_Ok & H).
  apply bind_Ok in H as (outchecked & Hoc & [= <-]).
  apply commit_refs_fold in Hcr as (entries & Hentries & Hm).
  pose proof (find_outchecked_Ok _ _ Hoc) as Hmem.
  set (steps0 := match index with
                 | Some index =>
                     (new_CommitStep PICK <$> commits) ++ [new_CommitStep INDEX index]
                 | None => new_CommitStep PICK <$> commits
                 end).
  assert (Forall (fun step => extrasteps step = []) steps0) as Hfresh.
  { subst steps0. destruct index; rewrite ?Forall_app, ?Forall_fmap;
      repeat split; try (by apply Forall_true); by repeat constructor. }
  split.
  - rewrite <- list_fmap_compose.
    transitivity (commit <$> steps0).
    + apply list_fmap_ext. intros _ step _. simpl.
      apply (annotate_ref_fold outchecked).
    + subst steps0. destruct index; simpl;
        rewrite ?fmap_app, <- ?list_fmap_compose, ?app_nil_r; simpl;
        by rewrite list_fmap_id.
  - exists refs_out, wt_out, entries. split_and!; [done..|].
    apply Forall_fmap. eapply Forall_impl; [exact Hfresh|].
    intros step Hnil. simpl. unfold annotate_step.
    destruct (annotate_ref_fold outchecked
                (default [] (commit_refs !! oid (commit step))) step)
      as [-> ->].
    rewrite Hnil, Hm, lookup_empty. simpl.
    apply list_fmap_ext. intros _ ref _. unfold extra_step_for. simpl.
    f_equal. rewrite (bool_decide_ext (ref ∉ outchecked)
      (ref ∉ checked_out_in (worktree_records wt_out))); [done|].
    by rewrite Hmem.
Qed.

(** ** Validator *)

Lemma size_oid_set_le (l : list Oid) :
  size (list_to_set l : gset Oid) ≤ length l.
Proof.
  induction l as [|x l IH]; simpl; [done|].
  destruct (decide (x ∈ (list_to_set l : gset Oid))) as [Hin|Hin].
  - replace ({[x]} ∪ list_to_set l) with (list_to_set l : gset Oid)
      by set_solver. lia.
  - rewrite size_union by set_solver. rewrite size_singleton. lia.
Qed.

Lemma size_oid_set_NoDup (l : list Oid) :
  size (list_to_set l : gset Oid) = length l ↔ NoDup l.
Proof.
  split; [|apply size_list_to_set].
  induction l as [|x l IH]; simpl; [constructor|].
  intros Hsize. pose proof (size_oid_set_le l) as Hle.
  destruct (decide (x ∈ (list_to_set l : gset Oid))) as [Hin|Hin].
  - replace ({[x]} ∪ list_to_set l) with (list_to_set l : gset Oid) in Hsize
      by set_solver. lia.
  - rewrite size_union, size_singleton in Hsize by set_solver.
    constructor; [set_solver|]. apply IH. lia.
Qed.

Lemma not_NoDup_witness (l : list Oid) :
  ¬ NoDup l → ∃ i j x, i ≠ j ∧ l !! i = Some x ∧ l !! j = Some x.
Proof.
  induction l as [|x l IH]; intros Hnd.
  - destruct Hnd. constructor.
  - destruct (decide (x ∈ l)) as [Hin|Hin].
    + apply list_elem_of_lookup in Hin as [j Hj].
      exists 0, (S j), x. done.
    + destruct IH as (i & j & y & Hij & Hi & Hj).
      { intros Hl. apply Hnd. by constructor. }
      exists (S i), (S j), y. split_and!; [lia|done..].
Qed.

Lemma has_duplicate_not_NoDup new :
  has_duplicate new ↔ ¬ NoDup (plan_oids new).
Proof.
  unfold has_duplicate, plan_oids. split.
  - intros (i & j & s1 & s2 & Hij & H1 & H2 & Heq) Hnd.
    apply Hij. eapply NoDup_lookup; [exact Hnd|..].
    + rewrite list_lookup_fmap, H1. done.
    + rewrite list_lookup_fmap, H2. simpl. by rewrite Heq.
  - intros (i & j & o & Hij & Hi & Hj)%not_NoDup_witness.
    rewrite list_lookup_fmap in Hi, Hj.
    destruct (new !! i) as [s1|] eqn:E1; [|done].
    destruct (new !! j) as [s2|] eqn:E2; [|done].
    simplify_eq/=. exists i, j, s1, s2. eauto.
Qed.

Lemma has_foreign_difference old new :
  has_foreign old new ↔ oid_set new ∖ oid_set old ≠ ∅.
Proof.
  unfold has_foreign, oid_set, plan_oids. split.
  - intros (s & Hs & Hout) Hempty.
    assert (oid (commit s) ∈
              (list_to_set ((fun step => oid (commit step)) <$> new) : gset Oid)
              ∖ list_to_set ((fun step => oid (commit step)) <$> old)) as Hin.
    { apply elem_of_difference. rewrite !elem_of_list_to_set. split; [|done].
      apply list_elem_of_fmap. eauto. }
    rewrite Hempty in Hin. set_solver.
  - intros Hne. apply set_choose_L in Hne as [o Ho].
    apply elem_of_difference in Ho as [Hin Hout].
    rewrite elem_of_list_to_set in Hin, Hout.
    apply list_elem_of_fmap in Hin as (s & -> & Hs). eauto.
Qed.

Lemma scan_for_tree_Some t i l j :
  scan_for_tree t i l = Some j ↔
  ∃ before c after,
    l = before ++ c :: after ∧ j = i + length before ∧
    tree_oid c = t ∧ ∀ b, b ∈ before → tree_oid b ≠ t.
Proof.
  revert i. induction l as [|x l IH]; intros i; simpl.
  - split; [done|]. intros (before & ? & ? & E & _). by destruct before.
  - case_decide as Hx.
    + split.
      * intros [= <-]. exists [], x, l. split_and!; [done|simpl; lia|done|].
        intros b Hb. by apply elem_of_nil in Hb.
      * intros ([|y before] & c & after & E & -> & Hc & Hb); simplify_eq/=.
        { f_equal. lia. }
        destruct (Hb y); [left|done].
    + rewrite IH. split.
      * intros (before & c & after & -> & -> & Hc & Hb).
        exists (x :: before), c, after. split_and!; [done|simpl; lia|done|].
        intros b [->|?]%elem_of_cons; auto.
      * intros ([|y before] & c & after & E & -> & Hc & Hb); simplify_eq/=.
        exists before, c, after. split_and!; [done|lia|done|].
        intros b ?. apply Hb. by right.
Qed.

Lemma scan_for_tree_None t i l :
  scan_for_tree t i l = None ↔ ∀ c, c ∈ l → tree_oid c ≠ t.
Proof.
  revert i. induction l as [|x l IH]; intros i; simpl.
  - split; [|done]. intros _ c Hc. by apply elem_of_nil in Hc.
  - case_decide as Hx.
    + split; [done|]. intros H. destruct (H x); [left|done].
    + rewrite IH. split.
      * intros H c [->|?]%elem_of_cons; auto.
      * intros H c ?. apply H. by right.
Qed.

Lemma one_parent (c : Commit) :
  length (parent_oids c) = 1 ↔ ∃ p, parent_oids c = [p].
Proof.
  destruct (parent_oids c) as [|p [|q l]]; simpl; split; try done; eauto.
  - by intros [? ?].
  - by intros [? ?].
Qed.


Lemma drop_after_first_match {A} (before : list A) c after :
  drop (S (length before)) (before ++ c :: after) = after.
Proof.
  induction before as [|x before IH]; simpl; [by rewrite drop_0|]. exact IH.
Qed.

Lemma bubble_walk_cons_inv repo head l r :
  bubble_walk repo (head :: l) r →
  (length (parent_oids head) ≠ 1 ∧ r = head :: l) ∨
  (∃ p parent,
     parent_oids head = [p] ∧ load_commit repo p = inr parent ∧
     ((scan_for_tree (tree_oid parent) 0 (head :: l) = None ∧ r = head :: l) ∨
      (∃ index,
         scan_for_tree (tree_oid parent) 0 (head :: l) = Some index ∧
         bubble_walk repo (drop (S index) (head :: l)) r))).
Proof.
  inversion 1 as [|? ? Hne|? ? p parent Hp Hl Hall
                  |? ? p parent before c after ? Hp Hl E Hb Hc Hw]; subst.
  - by left.
  - right. exists p, parent. split_and!; [done..|]. left. split; [|done].
    by apply scan_for_tree_None.
  - right. exists p, parent. split_and!; [done..|]. right.
    exists (length before). rewrite E. split.
    + apply scan_for_tree_Some. exists before, c, after. done.
    + by rewrite drop_after_first_match.
Qed.

Local Ltac same_parent Hp Hp' Hload Hl' :=
  rewrite Hp in Hp'; injection Hp' as <-;
  rewrite Hload in Hl'; first [injection Hl' as <- | discriminate Hl'].

(** The walk of the code is the walk of the specification, and the length of
    the list is fuel enough. *)
Lemma drop_bubbles_fuel_spec repo fuel l :
  length l ≤ fuel →
  drop_bubbles_fuel repo fuel l ≠ None ∧
  ∀ r, drop_bubbles_fuel repo fuel l = Some (Ok r) ↔ bubble_walk repo l r.
Proof.
  revert l. induction fuel as [|fuel IH]; intros l Hlen.
  { destruct l; simpl in *; [|lia]. split; [done|]. intros r. split.
    - intros [= <-]. constructor.
    - inversion 1. done. }
  destruct l as [|head l].
  { split; [done|]. intros r. split.
    - intros [= <-]. constructor.
    - inversion 1. done. }
  remember (head :: l) as dl eqn:Hdl.
  assert (drop_bubbles_fuel repo (S fuel) dl =
          if decide (length (parent_oids head) = 1) then
            match parents repo head with
            | Raise e => Some (Raise e)
            | Ok [] => Some (Raise IndexError)
            | Ok (parent :: _) =>
                match scan_for_tree (tree_oid parent) 0 dl with
                | Some index => drop_bubbles_fuel repo fuel (drop (S index) dl)
                | None => Some (Ok dl)
                end
            end
          else Some (Ok dl)) as -> by (by subst dl).
  case_decide as Hpar.
  - apply one_parent in Hpar as [p Hp]. unfold parents. rewrite Hp. simpl.
    destruct (load_commit repo p) as [e|parent] eqn:Hload; simpl; cycle 1.
    + destruct (scan_for_tree (tree_oid parent) 0 dl) as [index|] eqn:Hscan.
      * pose proof Hscan as Hdec.
        apply scan_for_tree_Some in Hdec
          as (before & c & after & Hsplit & -> & Hc & Hb). simpl.
        rewrite Hsplit, drop_after_first_match.
        destruct (IH after) as [Hsome Hspec].
        { assert (length dl = length (before ++ c :: after)) as Hl
            by by rewrite Hsplit.
          rewrite length_app in Hl. simpl in Hl. lia. }
        split; [done|]. intros r. rewrite Hspec. split.
        -- intros Hw. subst dl. rewrite <- Hsplit.
           eapply (walk_discard repo head l p parent before c after); eauto.
        -- intros Hw. subst dl. rewrite <- Hsplit in Hw.
           apply bubble_walk_cons_inv in Hw
             as [[Hne _]|(p' & parent' & Hp' & Hl' & Hw)].
           { rewrite Hp in Hne. done. }
           same_parent Hp Hp' Hload Hl'.
           destruct Hw as [[Hnone _]|(index & Hsome' & Hw)]; [congruence|].
           rewrite Hscan in Hsome'. injection Hsome' as <-.
           by rewrite Hsplit, drop_after_first_match in Hw.
      * split; [done|]. intros r. split.
        -- intros [= <-]. subst dl.
           eapply walk_stop_not_found; eauto.
           by apply (scan_for_tree_None _ 0).
        -- intros Hw. subst dl.
           apply bubble_walk_cons_inv in Hw
             as [[Hne _]|(p' & parent' & Hp' & Hl' & Hw)].
           { rewrite Hp in Hne. done. }
           same_parent Hp Hp' Hload Hl'.
           destruct Hw as [[_ ->]|(index & Hsome' & Hw)]; [done|congruence].
    + split; [done|]. intros r. split; [done|]. intros Hw. subst dl.
      apply bubble_walk_cons_inv in Hw
        as [[Hne _]|(p' & parent' & Hp' & Hl' & Hw)].
      { rewrite Hp in Hne. done. }
      same_parent Hp Hp' Hload Hl'.
  - split; [done|]. intros r. split.
    + intros [= <-]. subst dl. by constructor.
    + intros Hw. subst dl.
      apply bubble_walk_cons_inv in Hw
        as [[_ ->]|(p' & parent' & Hp' & Hl' & Hw)]; [done|].
      rewrite Hp' in Hpar. done.
Qed.

Lemma drop_bubbles_fuel_enough repo l :
  drop_bubbles_fuel repo (length l) l ≠ None.
Proof. by apply drop_bubbles_fuel_spec. Qed.

Lemma drop_bubbles_fuel_raises repo fuel l e :
  drop_bubbles_fuel repo fuel l = Some (Raise e) →
  e = IndexError ∨ ∃ x, e = External x.
Proof.
  revert l. induction fuel as [|fuel IH]; intros [|head l]; simpl; try done.
  - case_decide; [|done]. destruct (parents repo head) as [[|parent ?]|e'] eqn:Hp.
    + intros [= <-]. by left.
    + by repeat case_match.
    + intros [= <-]. unfold parents in Hp.
      destruct (parent_oids head) as [|p [|??]]; simpl in *; try done.
      destruct (load_commit repo p); simpl in *; [|done].
      injection Hp as <-. eauto.
  - case_decide; [|done]. destruct (parents repo head) as [[|parent ?]|e'] eqn:Hp.
    + intros [= <-]. by left.
    + repeat case_match; try done; apply IH.
    + intros [= <-]. unfold parents in Hp.
      destruct (parent_oids head) as [|p [|??]]; simpl in *; try done.
      destruct (load_commit repo p); simpl in *; [|done].
      injection Hp as <-. eauto.
Qed.

Lemma drop_bubbles_raises repo l e :
  drop_bubbles repo l = Raise e → e = IndexError ∨ ∃ x, e = External x.
Proof.
  unfold drop_bubbles.
  destruct (drop_bubbles_fuel repo (length l) l) as [r|] eqn:E.
  - intros ->. by apply drop_bubbles_fuel_raises in E.
  - by destruct (drop_bubbles_fuel_enough repo l).
Qed.

Lemma drop_bubbles_walk repo l r :
  drop_bubbles repo l = Ok r ↔ bubble_walk repo l r.
Proof.
  unfold drop_bubbles.
  destruct (drop_bubbles_fuel_spec repo (length l) l) as [Hsome Hspec]; [done|].
  rewrite <- Hspec.
  destruct (drop_bubbles_fuel repo (length l) l) as [r'|]; [|done].
  split; congruence.
Qed.


Lemma oid_set_size_NoDup plan :
  size (oid_set plan) = length plan ↔ NoDup (plan_oids plan).
Proof.
  unfold oid_set, plan_oids. by rewrite <- size_oid_set_NoDup, length_fmap.
Qed.




(** C3. Whatever the original plan, [validate_todos] accepts no edited plan
    in which two distinct steps have the same commit identity, or in which a
    step has a commit identity that the original plan does not have: it
    raises. When the original plan has no duplicate identity (what the
    assertion at the start of [validate_todos] demands) the exception is the
    [ValueError] for a duplicate commit in the first case, and otherwise the
    [ValueError] for a commit not referenced in the original list. *)
Theorem validate_todos_rejects_duplicate_and_foreign repo old new :
  has_duplicate new ∨ has_foreign old new →
  (∃ e, validate_todos repo old new = Raise e) ∧
  (NoDup (plan_oids old) →
   (has_duplicate new →
    validate_todos repo old new = Raise (ValueError DuplicateCommit)) ∧
   (¬ has_duplicate new →
    validate_todos repo old new = Raise (ValueError UnreferencedCommit))).
Proof.
  rewrite has_duplicate_not_NoDup, has_foreign_difference.
  rewrite <- !oid_set_size_NoDup. unfold validate_todos.
  intros Hbad.
  destruct (decide (size (oid_set old) = length old)) as [Hold|Hold];
    [|split; [eauto|done]].
  destruct (decide (size (oid_set new) ≠ length new)) as [Hnew|Hnew].
  { split; [eauto|]. intros _. split; [done|]. intros Hno. by destruct Hno. }
  destruct (decide (oid_set new ∖ oid_set old ≠ ∅)) as [Hfor|Hfor].
  { split; [eauto|]. intros _. split; [|done]. intros Hno. by destruct Hnew. }
  destruct Hbad as [Hdup|Hforeign]; done.
Qed.

Lemma index_last_true new :
  index_last true new = Ok () ↔ Forall (fun step => action step = INDEX) new.
Proof.
  induction new as [|s new IH]; simpl.
  - split; [constructor|done].
  - case_decide as Hs.
    + rewrite IH. split; [by constructor|]. by inversion 1.
    + split; [done|]. by inversion 1.
Qed.

Lemma index_last_false new :
  index_last false new = Ok () ↔ index_steps_trail new.
Proof.
  unfold index_steps_trail. induction new as [|s new IH]; simpl.
  - split; [|done]. intros _. exists [], []. by repeat constructor.
  - case_decide as Hs.
    + rewrite index_last_true. split.
      * intros Hall. exists [], (s :: new). split_and!; by repeat constructor.
      * intros ([|x front] & tail_ & E & Hfront & Htail); simplify_eq/=.
        { by inversion Htail. }
        by inversion Hfront.
    + rewrite IH. split.
      * intros (front & tail_ & -> & Hfront & Htail).
        exists (s :: front), tail_. split_and!; [done| by constructor |done].
      * intros ([|x front] & tail_ & E & Hfront & Htail); simplify_eq/=.
        { by inversion Htail. }
        exists front, tail_. split_and!; [done| by inversion Hfront |done].
Qed.

Lemma non_index_after_index_not_trail new :
  non_index_after_index new → ¬ index_steps_trail new.
Proof.
  intros (i & j & s1 & s2 & Hij & Hi & Hj & H1 & H2)
         (front & tail_ & -> & Hfront & Htail).
  destruct (decide (i < length front)) as [Hlt|Hge].
  - rewrite lookup_app_l in Hi by done.
    rewrite Forall_lookup in Hfront. by apply (Hfront i s1).
  - rewrite lookup_app_r in Hj by lia.
    rewrite Forall_lookup in Htail. by apply H2, (Htail (j - length front) s2).
Qed.

(** C6. [validate_todos] raises for every edited plan in which a step that is
    not an index step comes after an index step; every plan it accepts has
    its index steps in one trailing run, which may be empty; and when it
    raises the [ValueError] of the index rule, the index steps are not a
    trailing run. *)
Theorem validate_todos_index_steps_last repo old new :
  (non_index_after_index new → ∃ e, validate_todos repo old new = Raise e) ∧
  (validate_todos repo old new = Ok () → index_steps_trail new) ∧
  (validate_todos repo old new = Raise (ValueError IndexNotLast) →
   ¬ index_steps_trail new).
Proof.
  assert (validate_todos repo old new = index_last false new ∨
          ∃ e, validate_todos repo old new = Raise e ∧
               e ≠ ValueError IndexNotLast) as Hcases.
  { unfold validate_todos. repeat case_decide; eauto.
    destruct (drop_bubbles repo (dropped old new)) as [[|c rest]|e] eqn:Hwalk;
      simpl; eauto.
    right. eexists. split; [done|]. intros ->.
    by destruct (drop_bubbles_raises _ _ _ Hwalk) as [|[? ?]]. }
  split_and!.
  - intros Hbad%non_index_after_index_not_trail.
    destruct Hcases as [->|(e & -> & _)]; [|eauto].
    destruct (index_last false new) as [[]|e] eqn:E; [|eauto].
    by apply index_last_false in E.
  - destruct Hcases as [->|(e & -> & _)]; [|done]. apply index_last_false.
  - destruct Hcases as [->|(e & -> & Hne)]; [|congruence].
    intros Hraise Htrail%index_last_false. congruence.
Qed.

(** ** Executor *)

Lemma significant_extrasteps_apply cur step refs_ :
  foldM (apply_extrastep cur) (significant_extrasteps step) refs_ =
  Ok (foldl (fun r extra => update_head r (operand extra) cur) refs_
            (significant_extrasteps step)).
Proof.
  unfold significant_extrasteps.
  generalize (extrasteps step). intros extras. revert refs_.
  induction extras as [|x extras IH]; intros refs_; [done|].
  rewrite filter_cons. case_decide as Hx; [|apply IH].
  cbn [foldM foldl].
  assert (apply_extrastep cur refs_ x = Ok (update_head refs_ (operand x) cur))
    as ->.
  { unfold apply_extrastep. by destruct (extra_action x). }
  apply IH.
Qed.

(** What every way out of [apply_step] leaves of the first statements. *)
Lemma apply_step_begin repo reauthor st known_state step :
  let st' := final_state (apply_step repo reauthor st known_state step) in
  applied_old_commits st' = applied_old_commits (begin_step st known_state step) ∧
  applied_new_commits st' = applied_new_commits (begin_step st known_state step) ∧
  rebase_calls st' = rebase_calls (begin_step st known_state step).
Proof.
  unfold apply_step, after_rebase.
  destruct (rebase repo _ _ _) as [e|r]; [done|].
  destruct (transition repo _ _ _) as [[cur|]|e]; [|done..].
  rewrite significant_extrasteps_apply. done.
Qed.

(** C4. A step whose action is fixup, taken with no current tip, makes the
    executor fail and leaves the tip null, the branch heads and the progress
    output as they were; the failure is the [ValueError] for a fixup as first
    commit whenever the rebase of the step returned. Taken with a current
    tip, and the rebase returning [r], the step goes on with a new tip that
    is the current tip with its tree replaced by the tree of the rebased
    commit: same message, same parents, and the same author unless the
    reauthor flag is set. *)
Theorem apply_step_fixup repo reauthor st known_state step :
  action step = FIXUP →
  (current st = None →
   ∃ e st',
     apply_step repo reauthor st known_state step = Raised e st' ∧
     current st' = None ∧ refs st' = refs st ∧ printed st' = printed st ∧
     (∀ r, rebase repo (commit step) None
                  (tree_to_keep_for st known_state step) = inr r →
           e = ValueError FixupFirst)) ∧
  (∀ cur r,
     current st = Some cur →
     rebase repo (commit step) (Some cur)
            (tree_to_keep_for st known_state step) = inr r →
     ∃ st' tip,
       apply_step repo reauthor st known_state step = Continue st' ∧
       current st' = Some tip ∧
       tree_oid tip = tree_oid r ∧
       message tip = message cur ∧
       parent_oids tip = parent_oids cur ∧
       author tip = (if reauthor then default_author repo else author cur) ∧
       (reauthor = false →
        tip = update repo cur
                (Some (tree_oid (update repo r None (Some (step_message step))
                                        None)))
                None None)).
Proof.
  intros Hfix. split.
  - intros Hnone. unfold apply_step, after_rebase, transition. simpl. rewrite Hfix, Hnone.
    destruct (rebase repo _ _ _) as [e|r]; simpl.
    + do 2 eexists. split_and!; done.
    + do 2 eexists. split_and!; done.
  - intros cur r Hcur Hr. unfold apply_step, after_rebase, transition. simpl.
    rewrite Hfix, Hcur, Hr. rewrite significant_extrasteps_apply.
    do 2 eexists. split; [done|]. simpl. split; [done|].
    destruct reauthor; simpl; split_and!; try done.
Qed.

Lemma apply_loop_app repo reauthor st before after st1 :
  apply_loop repo reauthor st before = Continue st1 →
  apply_loop repo reauthor st (before ++ after) =
  apply_loop repo reauthor st1 after.
Proof.
  revert st. induction before as [|[known_state step] before IH]; intros st.
  - simpl. by intros [= <-].
  - simpl. destruct (apply_step repo reauthor st known_state step); try done.
    apply IH.
Qed.

(** An index step: the loop is left at once, with or without a rebase
    failure, and nothing but the touched sets and the record of the rebase
    call has changed. *)
Lemma apply_step_index repo reauthor st known_state step :
  action step = INDEX →
  ∃ st',
    (apply_step repo reauthor st known_state step = Break st' ∨
     ∃ e, apply_step repo reauthor st known_state step = Raised (External e) st') ∧
    st' = begin_step st known_state step.
Proof.
  intros Hidx. unfold apply_step, after_rebase, transition. rewrite Hidx.
  destruct (rebase repo _ _ _) as [e|r]; simpl; eauto 10.
Qed.

(** C9. When the execution reaches a step whose action is index, that is
    when the steps before it all went through, [apply_todos] ends there:
    the tip, the branch heads and the progress lines are those left by the
    steps before the index step, whatever extra steps the index step
    carries and whatever steps follow it. So there is no reauthoring, no
    extra step applied (no update-ref of the index step repoints a branch)
    and no progress line for the index step or any later step; the only
    trace of the index step is its rebase call. *)
Theorem apply_todos_stops_at_index repo current_ todos_original todos_edited
    reauthor refs_ before known_state step after st1 :
  zip todos_original todos_edited = before ++ (known_state, step) :: after →
  action step = INDEX →
  apply_loop repo reauthor (initial_state current_ refs_) before = Continue st1 →
  let st' :=
    (apply_todos repo current_ todos_original todos_edited reauthor refs_).2 in
  current st' = current st1 ∧
  refs st' = refs st1 ∧
  printed st' = printed st1 ∧
  rebase_calls st' = rebase_calls (begin_step st1 known_state step) ∧
  (∀ r, rebase repo (commit step) (current st1)
               (tree_to_keep_for st1 known_state step) = inr r →
        (apply_todos repo current_ todos_original todos_edited reauthor refs_).1
        = match current st1 with
          | Some c => Ok c
          | None => Raise (ValueError NoCommitsIntroduced)
          end).
Proof.
  intros Hzip Hidx Hbefore. unfold apply_todos.
  rewrite Hzip, (apply_loop_app _ _ _ _ _ _ Hbefore). simpl.
  pose proof (apply_step_index repo reauthor st1 known_state step Hidx)
    as (st' & [Hstep|[e Hstep]] & ->); rewrite Hstep.
  - destruct (current (begin_step st1 known_state step)) eqn:Hcur;
      simpl in *; rewrite ?Hcur; split_and!; try done;
      intros; by rewrite Hcur.
  - simpl. split_and!; try done. intros r Hr.
    unfold apply_step, after_rebase in Hstep. simpl in Hstep. rewrite Hr in Hstep.
    unfold transition in Hstep. rewrite Hidx in Hstep. done.
Qed.

(** ** The touched sets *)

Lemma apply_loop_calls_prefix repo reauthor pairs st :
  ∃ more,
    rebase_calls (final_state (apply_loop repo reauthor st pairs)) =
    rebase_calls st ++ more.
Proof.
  revert st. induction pairs as [|[known_state step] pairs IH]; intros st.
  - exists []. simpl. by rewrite app_nil_r.
  - simpl.
    pose proof (apply_step_begin repo reauthor st known_state step)
      as (_ & _ & Hcalls). simpl in Hcalls.
    destruct (apply_step repo reauthor st known_state step) as [st1|st1|e st1];
      simpl in *; try (eexists; exact Hcalls).
    destruct (IH st1) as [more ->]. rewrite Hcalls, <- app_assoc. eauto.
Qed.

Lemma tree_to_keep_for_sets st known_state step :
  tree_to_keep_for st known_state step =
  if decide (oid_set [step] ∪ applied_new_commits st
             = oid_set [known_state] ∪ applied_old_commits st)
  then Some (tree_oid (commit known_state)) else None.
Proof.
  unfold tree_to_keep_for, deja_vu, oid_set. simpl.
  rewrite !(right_id_L ∅ (∪)). by case_bool_decide; case_decide.
Qed.

Lemma oid_set_cons step plan (X : gset Oid) :
  oid_set (step :: plan) ∪ X = oid_set plan ∪ ({[oid (commit step)]} ∪ X).
Proof. unfold oid_set. simpl. set_solver. Qed.

Lemma apply_loop_calls repo reauthor pairs st i call :
  rebase_calls (final_state (apply_loop repo reauthor st pairs))
    !! (length (rebase_calls st) + i) = Some call →
  ∃ known_state step,
    pairs !! i = Some (known_state, step) ∧
    rebased_commit call = oid (commit step) ∧
    tree_to_keep call =
      if decide (oid_set (take (S i) pairs.*2) ∪ applied_new_commits st
                 = oid_set (take (S i) pairs.*1) ∪ applied_old_commits st)
      then Some (tree_oid (commit known_state)) else None.
Proof.
  revert st i. induction pairs as [|[known_state step] pairs IH]; intros st i.
  { simpl. intros Hi. apply lookup_lt_Some in Hi. lia. }
  simpl.
  pose proof (apply_step_begin repo reauthor st known_state step)
    as (Hold & Hnew & Hcalls). simpl in Hold, Hnew, Hcalls.
  pose proof (tree_to_keep_for_sets st known_state step) as Hkeep.
  assert (∀ st1 more,
            rebase_calls st1 = rebase_calls (begin_step st known_state step) →
            (rebase_calls st1 ++ more) !! (length (rebase_calls st) + 0)
              = Some call →
            ∃ known_state0 step0,
              Some (known_state, step) = Some (known_state0, step0) ∧
              rebased_commit call = oid (commit step0) ∧
              tree_to_keep call =
                if decide (oid_set (take 1 (step :: pairs.*2))
                             ∪ applied_new_commits st
                           = oid_set (take 1 (known_state :: pairs.*1))
                               ∪ applied_old_commits st)
                then Some (tree_oid (commit known_state0)) else None) as Hfirst.
  { intros st1 more -> Hi. simpl in Hi.
    rewrite Nat.add_0_r, <- app_assoc, lookup_app_r, Nat.sub_diag in Hi by done.
    simpl in Hi. injection Hi as <-.
    exists known_state, step. simpl. rewrite take_0. by rewrite Hkeep. }
  destruct (apply_step repo reauthor st known_state step) as [st1|st1|e st1];
    simpl in *.
  - destruct i as [|i].
    + destruct (apply_loop_calls_prefix repo reauthor pairs st1) as [more ->].
      by apply Hfirst.
    + intros Hi. destruct (IH st1 i) as (k & s & Hlook & Hc & Hk).
      { rewrite Hcalls, length_app. simpl.
        by replace (length (rebase_calls st) + 1 + i)
          with (length (rebase_calls st) + S i) by lia. }
      exists k, s. split_and!; [done..|]. rewrite Hk, Hold, Hnew.
      by rewrite !oid_set_cons.
  - destruct i as [|i].
    + intros Hi. apply (Hfirst st1 []); [done|]. by rewrite app_nil_r.
    + intros Hi. apply lookup_lt_Some in Hi.
      rewrite Hcalls, length_app in Hi. simpl in Hi. lia.
  - destruct i as [|i].
    + intros Hi. apply (Hfirst st1 []); [done|]. by rewrite app_nil_r.
    + intros Hi. apply lookup_lt_Some in Hi.
      rewrite Hcalls, length_app in Hi. simpl in Hi. lia.
Qed.

Lemma take_zip_fst {A B} (l : list A) (k : list B) n :
  n ≤ length k → take n (zip l k).*1 = take n l.
Proof.
  revert l k. induction n as [|n IH]; intros [|x l] [|y k] Hn; simpl in *;
    try done; try lia.
  f_equal. apply IH. lia.
Qed.

Lemma take_zip_snd {A B} (l : list A) (k : list B) n :
  n ≤ length l → take n (zip l k).*2 = take n k.
Proof.
  revert l k. induction n as [|n IH]; intros [|x l] [|y k] Hn; simpl in *;
    try done; try lia.
  f_equal. apply IH. lia.
Qed.

Lemma apply_loop_sets repo reauthor pairs st st' :
  apply_loop repo reauthor st pairs = Continue st' →
  applied_old_commits st' = oid_set pairs.*1 ∪ applied_old_commits st ∧
  applied_new_commits st' = oid_set pairs.*2 ∪ applied_new_commits st ∧
  length (rebase_calls st') = length (rebase_calls st) + length pairs.
Proof.
  revert st. induction pairs as [|[known_state step] pairs IH]; intros st; simpl.
  - intros [= <-]. unfold oid_set. simpl. split_and!; [set_solver..|lia].
  - pose proof (apply_step_begin repo reauthor st known_state step)
      as (Hold & Hnew & Hcalls). simpl in Hold, Hnew, Hcalls.
    destruct (apply_step repo reauthor st known_state step) as [st1|st1|e st1];
      try done.
    intros (-> & -> & ->)%IH. simpl in *. rewrite Hold, Hnew, Hcalls.
    rewrite !oid_set_cons, length_app. simpl. split_and!; [done..|lia].
Qed.

Lemma oid_set_take_S plan i step :
  plan !! i = Some step →
  oid_set (take (S i) plan) = {[oid (commit step)]} ∪ oid_set (take i plan).
Proof.
  intros Hstep. rewrite (take_S_r _ _ _ Hstep). unfold oid_set.
  rewrite fmap_app, list_to_set_app_L. simpl. set_solver.
Qed.

(** C1, as the code has it. When the loop of [apply_todos] comes to step
    [i], the identities of the original and of the edited step are added
    to the two sets, which are then the identities of the first [i + 1]
    original steps and of the first [i + 1] edited steps; the rebase
    collaborator is called for the commit of the edited step, on the
    current tip, with the tree of the original commit of that step when the
    two sets are equal and with no tree otherwise, and the iteration goes on
    from the answer of that call. The choice depends on the two sets after
    that step alone, so the optimization comes back at a later step where
    the sets are equal again. The call is the entry [i] of the record of
    the calls. *)
Theorem apply_todos_deja_vu repo current_ todos_original todos_edited reauthor
    refs_ i known_state step st :
  todos_original !! i = Some known_state →
  todos_edited !! i = Some step →
  apply_loop repo reauthor (initial_state current_ refs_)
             (take i (zip todos_original todos_edited)) = Continue st →
  let tree_to_keep_ :=
    if decide (touched todos_edited (S i) = touched todos_original (S i))
    then Some (tree_oid (commit known_state)) else None in
  applied_old_commits (begin_step st known_state step)
  = touched todos_original (S i) ∧
  applied_new_commits (begin_step st known_state step)
  = touched todos_edited (S i) ∧
  apply_step repo reauthor st known_state step
  = after_rebase repo reauthor (begin_step st known_state step) step
      (rebase repo (commit step) (current st) tree_to_keep_) ∧
  rebase_calls
    (apply_todos repo current_ todos_original todos_edited reauthor refs_).2
    !! i
  = Some {| rebased_commit := oid (commit step);
            onto := oid <$> current st;
            tree_to_keep := tree_to_keep_ |}.
Proof.
  intros Hko Hse Hloop tree_to_keep_.
  assert (i < length todos_original ∧ i < length todos_edited) as [Hio Hie].
  { split; by eapply lookup_lt_Some. }
  apply apply_loop_sets in Hloop as Hsets.
  destruct Hsets as (Hold & Hnew & Hlen).
  rewrite !fmap_take in Hold, Hnew.
  rewrite take_zip_fst in Hold by lia. rewrite take_zip_snd in Hnew by lia.
  simpl in Hold, Hnew, Hlen.
  rewrite !(right_id_L ∅ (∪)) in Hold, Hnew.
  rewrite length_take, length_zip in Hlen.
  assert (applied_old_commits (begin_step st known_state step)
          = touched todos_original (S i)) as Hold'.
  { unfold touched. rewrite (oid_set_take_S _ _ _ Hko). simpl. by rewrite Hold. }
  assert (applied_new_commits (begin_step st known_state step)
          = touched todos_edited (S i)) as Hnew'.
  { unfold touched. rewrite (oid_set_take_S _ _ _ Hse). simpl. by rewrite Hnew. }
  assert (tree_to_keep_for st known_state step = tree_to_keep_) as Hkeep.
  { unfold tree_to_keep_for, deja_vu, tree_to_keep_.
    simpl in Hold', Hnew'. rewrite Hold', Hnew'.
    by case_bool_decide; case_decide. }
  split_and!; [done|done| |].
  - unfold apply_step. by rewrite Hkeep.
  - assert (zip todos_original todos_edited
            = take i (zip todos_original todos_edited)
              ++ (known_state, step)
                 :: drop (S i) (zip todos_original todos_edited)) as Hzip.
    { rewrite <- (take_drop i (zip todos_original todos_edited)) at 1.
      f_equal. apply drop_S. apply lookup_zip_with_Some. eauto. }
    assert (rebase_calls
              (apply_todos repo current_ todos_original todos_edited reauthor
                 refs_).2
            = rebase_calls (final_state
                (apply_loop repo reauthor (initial_state current_ refs_)
                   (zip todos_original todos_edited)))) as ->.
    { unfold apply_todos.
      destruct (apply_loop _ _ _ (zip _ _)) as [st'|st'|e st']; simpl;
        try done; by destruct (current st'). }
    rewrite Hzip, (apply_loop_app _ _ _ _ _ _ Hloop). simpl.
    pose proof (apply_step_begin repo reauthor st known_state step)
      as (_ & _ & Hcalls). simpl in Hcalls.
    assert (∀ st1 more,
              rebase_calls st1 = rebase_calls (begin_step st known_state step) →
              (rebase_calls st1 ++ more) !! i
              = Some {| rebased_commit := oid (commit step);
                        onto := oid <$> current st;
                        tree_to_keep := tree_to_keep_ |}) as Hentry.
    { intros st1 more ->. simpl. rewrite <- app_assoc.
      rewrite lookup_app_r by lia.
      replace (i - length (rebase_calls st)) with 0 by lia.
      simpl. by rewrite Hkeep. }
    destruct (apply_step repo reauthor st known_state step) as [st1|st1|e st1];
      simpl in *.
    + destruct (apply_loop_calls_prefix repo reauthor
                  (drop (S i) (zip todos_original todos_edited)) st1)
        as [more ->].
      by apply Hentry.
    + rewrite <- (app_nil_r (rebase_calls st1)). by apply Hentry.
    + rewrite <- (app_nil_r (rebase_calls st1)). by apply Hentry.
Qed.

(** ** Presentation bridge *)


Lemma append_cons c s t : String c s +:+ t = String c (s +:+ t).
Proof. reflexivity. Qed.

Lemma append_nil t : EmptyString +:+ t = t.
Proof. reflexivity. Qed.

Local Ltac unfold_append :=
  repeat first [rewrite append_cons | rewrite append_nil].

Lemma append_snoc cur c s : snoc cur c +:+ s = cur +:+ String c s.
Proof. unfold snoc. induction cur; unfold_append; [done|]. by f_equal. Qed.

Lemma append_empty_r s : s +:+ EmptyString = s.
Proof. induction s; unfold_append; [done|]. by f_equal. Qed.

Lemma append_assoc (a b c : string) : (a +:+ b) +:+ c = a +:+ (b +:+ c).
Proof. induction a; unfold_append; [done|]. by f_equal. Qed.

(** *** Line-wise mode *)

Lemma splitlines_go_line cur x rest :
  no_linebreak x = true →
  splitlines_go cur ((x +:+ newline) +:+ rest) =
  (cur +:+ x) :: splitlines_go EmptyString rest.
Proof.
  revert cur. induction x as [|c x IH]; intros cur; unfold newline;
    unfold_append; simpl.
  - intros _. by rewrite append_empty_r.
  - intros [[Hlf Hcr]%andb_prop Hx]%andb_prop.
    apply negb_true_iff in Hlf, Hcr. rewrite Hlf, Hcr.
    fold newline. rewrite IH by done. by rewrite append_snoc.
Qed.

Lemma splitlines_linewise_text entries :
  Forall (fun entry => no_linebreak entry = true) entries →
  splitlines (linewise_text entries) = entries.
Proof.
  unfold splitlines, linewise_text, join.
  induction 1 as [|x entries Hx _ IH]; simpl; [done|].
  rewrite splitlines_go_line by done. unfold_append. f_equal. exact IH.
Qed.

(** *** Message-editing mode *)

Lemma re_split_marker_go_unfold bol cur c s' :
  re_split_marker_go bol cur (String c s') =
  if is_marker_at bol (String c s')
  then cur :: re_split_marker_go false EmptyString
                (match s' with String _ (String _ rest) => rest | _ => s' end)
  else re_split_marker_go (Ascii.eqb c LF) (snoc cur c) s'.
Proof. destruct s' as [|c2 [|c3 rest]]; simpl; try done. Qed.

Lemma is_marker_at_line bol c x rest :
  is_marker_at bol ((String c x +:+ newline) +:+ rest) =
  is_marker_at bol (String c x).
Proof.
  destruct x as [|c2 [|c3 x]]; unfold newline; unfold_append; simpl.
  - destruct rest; simpl; [done|]. by rewrite andb_false_r.
  - by rewrite andb_false_r.
  - done.
Qed.

Lemma re_split_marker_go_entry bol cur x rest :
  marker_free_go bol x = true →
  re_split_marker_go bol cur ((x +:+ newline) +:+ rest) =
  re_split_marker_go true (cur +:+ (x +:+ newline)) rest.
Proof.
  revert bol cur. induction x as [|c x IH]; intros bol cur.
  - intros _. unfold newline. unfold_append.
    rewrite re_split_marker_go_unfold.
    assert (is_marker_at bol (String LF rest) = false) as ->.
    { destruct rest as [|? [|? ?]]; simpl; try done. by rewrite andb_false_r. }
    done.
  - cbn [marker_free_go]. intros [Hhere Hx]%andb_prop.
    apply negb_true_iff in Hhere.
    rewrite <- (is_marker_at_line bol c x rest) in Hhere.
    revert Hhere. rewrite !append_cons. intros Hhere.
    rewrite re_split_marker_go_unfold, Hhere, IH by done.
    by rewrite append_snoc.
Qed.

Lemma re_split_marker_go_text cur entries :
  Forall (fun entry => marker_free entry = true) entries →
  re_split_marker_go true cur (msgedit_text entries) =
  cur :: ((fun x => x +:+ newline) <$> entries).
Proof.
  intros Hall. revert cur.
  induction Hall as [|x entries Hx Hall IH]; intros cur; [done|].
  unfold msgedit_text. cbn [fmap list_fmap join foldr].
  change (foldr String.append EmptyString
            ((fun x => (marker +:+ x) +:+ newline) <$> entries))
    with (msgedit_text entries).
  unfold marker at 1. rewrite !append_cons, append_nil.
  rewrite re_split_marker_go_unfold.
  change (is_marker_at true _) with true. cbv iota.
  rewrite (re_split_marker_go_entry false EmptyString x) by done.
  rewrite IH. unfold_append. done.
Qed.

(** *** The flag is a view transform *)



Lemma mapM_fmap {A B C} (f : B -> result C) (g : A -> B) l :
  mapM f (g <$> l) = mapM (fun x => f (g x)) l.
Proof. induction l as [|x l IH]; [done|]. cbn [fmap list_fmap mapM]. f_equal.
  by rewrite <- IH. Qed.

Lemma edit_todos_entries repo todos msgedit flag :
  editor_returns_unchanged repo todos msgedit →
  plain_entries repo todos msgedit →
  (if msgedit then edit_todos_msgedit repo todos flag
   else edit_todos_linewise repo todos flag) =
  mapM (parse_entry repo msgedit)
       (if flag then reverse (entries repo todos msgedit)
        else entries repo todos msgedit).
Proof.
  intros Hed Hplain. specialize (Hed flag).
  unfold editor_text, plain_entries, entries, parse_entry in *.
  destruct msgedit.
  - unfold edit_todos_msgedit. rewrite Hed. simpl.
    unfold re_split_marker. rewrite re_split_marker_go_text.
    + cbn [tail]. apply mapM_fmap.
    + destruct flag; [by apply Forall_reverse|done].
  - unfold edit_todos_linewise. rewrite Hed. simpl.
    rewrite splitlines_linewise_text.
    + destruct flag; [|done]. by rewrite filter_reverse.
    + destruct flag; [by apply Forall_reverse|done].
Qed.



(** ** Autosquash matcher *)

Lemma lstrip_length s : String.length (lstrip s) ≤ String.length s.
Proof.
  induction s as [|c s IH]; simpl; [done|]. destruct (is_space c); simpl; lia.
Qed.

Lemma take_word_length s w rest :
  take_word s = (w, rest) →
  String.length s = String.length w + String.length rest.
Proof.
  revert w rest. induction s as [|c s IH]; intros w rest; simpl.
  - by intros [= <- <-].
  - destruct (is_space c); [by intros [= <- <-]|].
    destruct (take_word s) as [w' rest'] eqn:E. intros [= <- <-].
    simpl. rewrite (IH w' rest'); done.
Qed.

Lemma lstrip_head s c s' : lstrip s = String c s' → is_space c = false.
Proof.
  induction s as [|d s IH]; simpl; [done|].
  destruct (is_space d) eqn:E; [done|]. by intros [= <- <-].
Qed.

Lemma split_ws1_shorter s w rest :
  split_ws1 s = [w; rest] → String.length rest < String.length s.
Proof.
  unfold split_ws1. pose proof (lstrip_length s) as Hs.
  destruct (lstrip s) as [|c s1] eqn:E; [done|].
  apply lstrip_head in E as Hc.
  destruct (take_word (String c s1)) as [w' rest'] eqn:Hw.
  pose proof (take_word_length _ _ _ Hw) as Hlen.
  pose proof (lstrip_length rest') as Hrest.
  assert (0 < String.length w') as Hpos.
  { simpl in Hw. rewrite Hc in Hw. destruct (take_word s1).
    injection Hw as <- <-. simpl. lia. }
  destruct (lstrip rest') eqn:Hr; [done|]. intros [= <- <-].
  simpl in *. lia.
Qed.

Lemma strip_prefixes_fuel_enough_for fuel needle :
  String.length needle ≤ fuel → strip_prefixes_fuel fuel needle ≠ None.
Proof.
  revert needle. induction fuel as [|fuel IH]; intros needle Hlen.
  - destruct needle; simpl in *; [done|lia].
  - simpl. destruct (_ || _); [|done].
    destruct (split_ws1 needle) as [|w [|rest [|? ?]]] eqn:E; try done.
    apply IH. apply split_ws1_shorter in E. lia.
Qed.

Lemma strip_prefixes_fuel_enough needle :
  strip_prefixes_fuel (String.length needle) needle ≠ None.
Proof. by apply strip_prefixes_fuel_enough_for. Qed.

Lemma lstrip_all_space ws : all_space ws = true → lstrip ws = EmptyString.
Proof.
  induction ws as [|c ws IH]; simpl; [done|].
  intros [-> Hws]%andb_prop. auto.
Qed.

Lemma startswith_append p s : startswith (p +:+ s) p = true.
Proof.
  unfold startswith. induction p as [|a p IH].
  - rewrite append_nil. by destruct s.
  - rewrite append_cons. simpl. by destruct (ascii_dec a a).
Qed.

(** A summary that is a prefix and nothing but whitespace after it. *)
Lemma strip_prefixes_bare p ws :
  p = fixup_prefix ∨ p = squash_prefix →
  all_space ws = true →
  strip_prefixes (p +:+ ws) = Raise IndexError.
Proof.
  intros Hp Hws%lstrip_all_space. unfold strip_prefixes.
  assert (∀ fuel, strip_prefixes_fuel fuel (p +:+ ws) = Some (Raise IndexError))
    as ->; [|done].
  intros fuel.
  assert (startswith (p +:+ ws) fixup_prefix
          || startswith (p +:+ ws) squash_prefix = true) as Hstart.
  { destruct Hp as [-> | ->]; rewrite startswith_append; [done|].
    apply orb_true_r. }
  assert (∃ w, split_ws1 (p +:+ ws) = [w]) as [w Hsplit].
  { destruct Hp as [-> | ->]; unfold fixup_prefix, squash_prefix, split_ws1;
      rewrite !append_cons, append_nil; simpl; rewrite Hws; eauto. }
  destruct fuel; simpl; rewrite Hstart, Hsplit; done.
Qed.

Lemma foldM_raises_at {A S} (f : S -> A -> result S) l x s :
  x ∈ l → (∀ s', ∃ e, f s' x = Raise e) → ∃ e, foldM f l s = Raise e.
Proof.
  intros Hx Hf. revert s. induction l as [|y l IH]; intros s.
  - by apply elem_of_nil in Hx.
  - simpl. apply elem_of_cons in Hx as [<-|Hx].
    + destruct (Hf s) as [e ->]. eauto.
    + destruct (f s y); simpl; eauto.
Qed.

(** C10. [autosquash_todos] is not total. For a step whose commit has a
    summary made of the fixup or the squash prefix followed by nothing but
    whitespace, the prefix-stripping loop of [add_autosquash_step] raises
    [IndexError] whatever the sequences collected so far, so
    [autosquash_todos] raises on every plan that contains such a step; and
    there is such a plan: the one pick of a commit whose message is the
    fixup prefix and a line end, on which it raises [IndexError]. *)
Theorem autosquash_todos_not_total repo :
  (∀ todos step p ws,
     step ∈ todos →
     p = fixup_prefix ∨ p = squash_prefix →
     all_space ws = true →
     summary (commit step) = p +:+ ws →
     (∀ picks, add_autosquash_step repo step picks = Raise IndexError) ∧
     ∃ e, autosquash_todos repo todos = Raise e) ∧
  autosquash_todos repo [new_CommitStep PICK bare_fixup_commit]
  = Raise IndexError.
Proof.
  assert (∀ step p ws picks,
            p = fixup_prefix ∨ p = squash_prefix →
            all_space ws = true →
            summary (commit step) = p +:+ ws →
            add_autosquash_step repo step picks = Raise IndexError) as Hstep.
  { intros step p ws picks Hp Hws Hsum. unfold add_autosquash_step.
    by rewrite Hsum, strip_prefixes_bare. }
  split.
  - intros todos step p ws Hin Hp Hws Hsum. split; [by eauto|].
    unfold autosquash_todos.
    destruct (foldM_raises_at
                (fun picks step => add_autosquash_step repo step picks)
                todos step [] Hin) as [e ->]; [|by eauto].
    intros picks. exists IndexError. by eapply Hstep.
  - unfold autosquash_todos. cbn [foldM].
    by rewrite (Hstep (new_CommitStep PICK bare_fixup_commit) fixup_prefix
                  EmptyString [] (or_introl eq_refl) eq_refl eq_refl).
Qed.

(** * Closed instances

    The statements above at the data of the small repository. *)

(** C1 at a swap of two commits: at the second step the two sets are equal
    again, the rebase is called with the tree of the original second
    commit, and the tip that comes out has that tree. *)
Lemma apply_todos_deja_vu_witness :
  ∃ st,
    apply_loop repo0 false (initial_state (Some root_commit) ∅)
               (take 1 (zip [pick_A; pick_B] [pick_B; pick_A])) = Continue st ∧
    apply_step repo0 false st pick_B pick_A
    = after_rebase repo0 false (begin_step st pick_B pick_A) pick_A
        (rebase repo0 commit_A (current st) (Some (tree_oid commit_B))) ∧
    tree_oid <$> current (final_state (apply_step repo0 false st pick_B pick_A))
    = Some (tree_oid commit_B).
Proof.
  destruct (apply_loop repo0 false (initial_state (Some root_commit) ∅)
              (take 1 (zip [pick_A; pick_B] [pick_B; pick_A])))
    as [st| |] eqn:Hst; [|vm_compute in Hst; discriminate Hst..].
  exists st. split; [reflexivity|].
  destruct (apply_todos_deja_vu repo0 (Some root_commit) [pick_A; pick_B]
              [pick_B; pick_A] false ∅ 1 pick_B pick_A st)
    as (_ & _ & Hcall & _); [reflexivity|reflexivity|exact Hst|].
  split; [exact Hcall|].
  vm_compute in Hst. injection Hst as <-. vm_compute. reflexivity.
Defined.

(** C1 as stated fails: with the plan [A; B] edited to [B; A] the touched
    sets differ after the first step, and the second step is not what it
    would be had the rebase been called with no tree: the tip has the tree
    of the original second commit. *)
Lemma deja_vu_comes_back :
  ¬ deja_vu_never_comes_back repo0 (Some root_commit)
      [pick_A; pick_B] [pick_B; pick_A].
Proof.
  intros Hnever.
  destruct (apply_loop repo0 false (initial_state (Some root_commit) ∅)
              (take 1 (zip [pick_A; pick_B] [pick_B; pick_A])))
    as [st| |] eqn:Hst; [|vm_compute in Hst; discriminate Hst..].
  assert (apply_step repo0 false st pick_B pick_A
          = after_rebase repo0 false (begin_step st pick_B pick_A) pick_A
              (rebase repo0 (commit pick_A) (current st) None)) as H.
  { apply (Hnever 0 1 pick_B pick_A st); [lia| |reflexivity|exact Hst].
    apply (bool_decide_unpack _). vm_compute. exact I. }
  apply (f_equal (fun o => tree_oid <$> current (final_state o))) in H.
  vm_compute in Hst. injection Hst as <-.
  vm_compute in H. discriminate H.
Qed.

(** C3 at a plan that repeats a commit. *)
Lemma validate_todos_rejects_duplicate_witness :
  has_duplicate [pick_A; pick_A] ∧
  validate_todos repo0 [pick_A; pick_B] [pick_A; pick_A]
  = Raise (ValueError DuplicateCommit).
Proof.
  assert (has_duplicate [pick_A; pick_A]) as Hdup.
  { exists 0, 1, pick_A, pick_A. split_and!; [lia|done..]. }
  split; [exact Hdup|].
  destruct (validate_todos_rejects_duplicate_and_foreign repo0
              [pick_A; pick_B] [pick_A; pick_A] (or_introl Hdup)) as [_ H].
  apply H; [|exact Hdup].
  apply (bool_decide_unpack _). vm_compute. exact I.
Defined.

(** C4 at a fixup of [commit_B] onto [commit_A]. *)
Lemma apply_step_fixup_witness :
  action fixup_B = FIXUP ∧
  ∃ st' tip,
    apply_step repo0 false on_commit_A pick_B fixup_B = Continue st' ∧
    current st' = Some tip ∧
    tree_oid tip = tree_oid commit_B_rebased ∧
    message tip = message commit_A ∧
    parent_oids tip = parent_oids commit_A ∧
    author tip = author commit_A.
Proof.
  split; [reflexivity|].
  destruct (apply_step_fixup repo0 false on_commit_A pick_B fixup_B eq_refl)
    as [_ H].
  destruct (H commit_A commit_B_rebased eq_refl eq_refl)
    as (st' & tip & H1 & H2 & H3 & H4 & H5 & H6 & _).
  exists st', tip. repeat split; assumption.
Defined.

(** C5 at the small repository. *)
Lemma build_todos_annotates_refs_witness :
  ∃ steps,
    build_todos repo0 [commit_A; commit_B] None = Ok steps ∧
    commit <$> steps = [commit_A; commit_B] ++ option_list None ∧
    annotated_by repo0 (fun records => records) steps.
Proof.
  eexists. split; [vm_compute; reflexivity|].
  apply build_todos_annotates_refs. vm_compute. reflexivity.
Defined.

(** C5 as stated fails: [master] is checked out in the main worktree and in
    no other, it points at [commit_B], and the step of [commit_B] gets a
    comment where the claim has an update-ref. *)
Lemma main_worktree_branch_is_not_updated :
  ∃ steps,
    build_todos repo0 [commit_A; commit_B] None = Ok steps ∧
    ¬ annotated_by repo0 tail steps.
Proof.
  eexists. split; [vm_compute; reflexivity|].
  intros (refs_out & wt_out & entries & H1 & H2 & H3 & Hall).
  vm_compute in H1, H2. injection H1 as <-. injection H2 as <-.
  vm_compute in H3. injection H3 as <-.
  apply Forall_cons in Hall as [_ Hall]. apply Forall_cons in Hall as [HB _].
  vm_compute in HB. discriminate HB.
Qed.

(** C6 at a plan with a pick after an index step. *)
Lemma validate_todos_index_steps_last_witness :
  non_index_after_index [index_B; pick_A] ∧
  ∃ e, validate_todos repo0 [pick_A; pick_B] [index_B; pick_A] = Raise e.
Proof.
  assert (non_index_after_index [index_B; pick_A]) as Hbad.
  { exists 0, 1, index_B, pick_A. split_and!; [lia|done..]. }
  split; [exact Hbad|].
  destruct (validate_todos_index_steps_last repo0 [pick_A; pick_B]
              [index_B; pick_A]) as [H _].
  exact (H Hbad).
Defined.



(** C9 at a plan whose last step was turned into an index step and carries
    an update-ref: the branch it names is not set. *)
Lemma apply_todos_stops_at_index_witness :
  ∃ st1,
    zip [pick_A; pick_B] [pick_A; index_B_with_ref]
      = [(pick_A, pick_A)] ++ (pick_B, index_B_with_ref) :: [] ∧
    action index_B_with_ref = INDEX ∧
    apply_loop repo0 false (initial_state (Some root_commit) ∅)
               [(pick_A, pick_A)] = Continue st1 ∧
    refs (apply_todos repo0 (Some root_commit) [pick_A; pick_B]
            [pick_A; index_B_with_ref] false ∅).2 = refs st1 ∧
    printed (apply_todos repo0 (Some root_commit) [pick_A; pick_B]
               [pick_A; index_B_with_ref] false ∅).2 = printed st1.
Proof.
  eexists. split; [reflexivity|]. split; [reflexivity|].
  split; [vm_compute; reflexivity|].
  destruct (apply_todos_stops_at_index repo0 (Some root_commit)
              [pick_A; pick_B] [pick_A; index_B_with_ref] false ∅
              [(pick_A, pick_A)] pick_B index_B_with_ref [] _
              eq_refl eq_refl eq_refl) as (_ & Hrefs & Hprinted & _).
  split; [exact Hrefs|exact Hprinted].
Defined.



(** Dropping the whole bubble is accepted. *)
Example bubble_drop_accepted :
  validate_todos repo0 [pick_A; pick_B; pick_C] [pick_A] = Ok ().
Proof. vm_compute. reflexivity. Qed.

(** A commit of another range is refused. *)
Example foreign_commit_refused :
  validate_todos repo0 [pick_A; pick_B] [pick_A; pick_B; pick_C]
  = Raise (ValueError UnreferencedCommit).
Proof. vm_compute. reflexivity. Qed.

(** The abbreviations of the editor's help text, the ties and a miss. *)
Example parse_action_abbreviations :
  parse_action "p" = Ok (inl PICK) ∧
  parse_action "f" = Ok (inl FIXUP) ∧
  parse_action "s" = Ok (inl SQUASH) ∧
  parse_action "r" = Ok (inl REWORD) ∧
  parse_action "c" = Ok (inl CUT) ∧
  parse_action "i" = Ok (inl INDEX) ∧
  parse_action "#" = Ok (inr COMMENT) ∧
  parse_action "u" = Ok (inr UPDATE_REF) ∧
  parse_action EmptyString = Ok (inl PICK) ∧
  parse_action "picks" = Raise (ValueError (UnrecognizedAction "picks")).
Proof. repeat split. Qed.

(** The pattern of [parse_step] on some entries. *)
Example match_todo_entry_examples :
  match_todo_entry "pick abc" = Some ("pick", "abc", None) ∧
  match_todo_entry "pick abc  commit one" = Some ("pick", "abc", Some "commit one") ∧
  match_todo_entry ("pick abc" +:+ newline) = Some ("pick", "abc", Some EmptyString) ∧
  match_todo_entry "pick" = None ∧
  match_todo_entry " pick abc" = None.
Proof. repeat split. Qed.

(** The text the message editor gets for [commit_A] and [commit_B], and the
    lines the sequence editor gets. *)
Example editor_text_examples :
  editor_text repo0 [pick_A; pick_B] true false =
    (("++ pick aaaaaaaaaaaa" +:+ newline) +:+ ("commit one" +:+ newline))
    +:+ newline +:+
    (("++ pick bbbbbbbbbbbb" +:+ newline) +:+ ("commit two" +:+ newline))
    +:+ newline ∧
  editor_text repo0 [pick_A; pick_B] false true =
    ("pick bbbbbbbbbbbb commit two" +:+ newline)
    +:+ ("pick aaaaaaaaaaaa commit one" +:+ newline).
Proof. split; vm_compute; reflexivity. Qed.

(** The split on whitespace that the autosquash matcher relies on. *)
Example split_ws1_examples :
  split_ws1 "fixup! commit two" = ["fixup!"; "commit two"] ∧
  split_ws1 "fixup! " = ["fixup!"] ∧
  split_ws1 "squash!   fixup! x " = ["squash!"; "fixup! x "].
Proof. repeat split. Qed.

(** Autosquash on the plan of the tests: the fixup of commit two moves next
    to it and is turned into a fixup step. *)
Example autosquash_folds_fixup :
  let fix_two :=
    {| oid := hex40 "e"; tree_oid := hex40 "4"; parent_oids := [hex40 "c"];
       message := "fixup! commit two" +:+ newline; author := author_ |} in
  autosquash_todos repo0 [pick_A; pick_B; pick_C; new_CommitStep PICK fix_two]
  = Ok [pick_A; pick_B; new_CommitStep FIXUP fix_two; pick_C].
Proof. vm_compute. reflexivity. Qed.

(** * Further properties of the code *)

(** ** Validator *)

(** X1. [validate_todos] accepts an edited plan exactly when the original
    plan and the edited plan have no repeated commit identity, every
    identity of the edited plan is in the original plan, the walk over the
    dropped commits leaves nothing, and the index steps of the edited plan
    are a trailing run. *)
Theorem validate_todos_accepts_iff repo old new :
  validate_todos repo old new = Ok () ↔
  NoDup (plan_oids old) ∧ NoDup (plan_oids new) ∧ ¬ has_foreign old new ∧
  bubble_walk repo (dropped old new) [] ∧ index_steps_trail new.
Proof.
  unfold validate_todos.
  rewrite <- !oid_set_size_NoDup, has_foreign_difference, <- drop_bubbles_walk,
    <- index_last_false.
  destruct (decide (size (oid_set old) = length old)) as [Hold|Hold];
    [|split; [done|tauto]].
  destruct (decide (size (oid_set new) ≠ length new)) as [Hnew|Hnew];
    [split; [done|tauto]|].
  apply dec_stable in Hnew.
  destruct (decide (oid_set new ∖ oid_set old ≠ ∅)) as [Hfor|Hfor];
    [split; [done|tauto]|].
  destruct (drop_bubbles repo (dropped old new)) as [[|c rest]|e]; simpl.
  - tauto.
  - split; [done|]. by intros (_ & _ & _ & [=] & _).
  - split; [done|]. by intros (_ & _ & _ & [=] & _).
Qed.

Lemma dropped_nil_of_subset old new :
  (∀ o, o ∈ plan_oids old → o ∈ plan_oids new) → dropped old new = [].
Proof.
  intros Hsub. unfold dropped.
  assert (filter (fun o => oid (commit o) ∉ oid_set new) old = []) as ->;
    [|done].
  induction old as [|s old IH]; [done|].
  rewrite filter_cons, decide_False.
  - apply IH. intros o Ho. apply Hsub. unfold plan_oids in *. simpl. by right.
  - intros Hout. apply Hout. unfold oid_set. apply elem_of_list_to_set, Hsub.
    unfold plan_oids. simpl. left.
Qed.

(** X2. A reordering is never refused for what it drops or adds: when the
    edited plan has the commit identities of the original plan in some
    order, and the original plan has no repeated identity, [validate_todos]
    comes down to the index rule, whatever the actions and messages of the
    edited steps and whatever the store holds. *)
Theorem validate_todos_reorder repo old new :
  plan_oids new ≡ₚ plan_oids old →
  NoDup (plan_oids old) →
  validate_todos repo old new = index_last false new ∧
  (validate_todos repo old new = Ok () ↔ index_steps_trail new).
Proof.
  intros Hperm Hold.
  assert (validate_todos repo old new = index_last false new) as Heq.
  { unfold validate_todos.
    assert (NoDup (plan_oids new)) as Hnew by by rewrite Hperm.
    apply oid_set_size_NoDup in Hold as Hsize, Hnew as Hsize'.
    rewrite decide_True by done. rewrite decide_False by (intros H; done).
    rewrite decide_False.
    - rewrite dropped_nil_of_subset; [done|].
      intros o Ho. by rewrite Hperm.
    - rewrite <- has_foreign_difference. intros (s & Hs & Hout).
      apply Hout. rewrite <- Hperm. unfold plan_oids.
      apply list_elem_of_fmap. eauto. }
  split; [done|]. rewrite Heq. apply index_last_false.
Qed.

(** X3. A root commit or a merge commit cannot be dropped first: when the
    checks before the walk pass and the first dropped commit does not have
    exactly one parent, [validate_todos] raises the error for a nonempty
    dropped commit and names that commit. *)
Theorem validate_todos_keeps_roots_and_merges repo old new c rest :
  NoDup (plan_oids old) → NoDup (plan_oids new) → ¬ has_foreign old new →
  dropped old new = c :: rest →
  length (parent_oids c) ≠ 1 →
  validate_todos repo old new = Raise (ValueError (CantDropNonempty (oid c))).
Proof.
  intros Hold%oid_set_size_NoDup Hnew%oid_set_size_NoDup Hfor Hdrop Hpar.
  rewrite has_foreign_difference in Hfor. unfold validate_todos.
  rewrite decide_True by done. rewrite decide_False by (intros H; done).
  rewrite decide_False by done. rewrite Hdrop.
  assert (drop_bubbles repo (c :: rest) = Ok (c :: rest)) as ->; [|done].
  apply drop_bubbles_walk. by constructor.
Qed.

(** X4. An empty commit can be dropped: when the checks before the walk
    pass and the one dropped commit has a single parent with the same tree,
    [validate_todos] comes down to the index rule. *)
Theorem validate_todos_drops_empty_commit repo old new c p parent :
  NoDup (plan_oids old) → NoDup (plan_oids new) → ¬ has_foreign old new →
  dropped old new = [c] →
  parent_oids c = [p] → load_commit repo p = inr parent →
  tree_oid c = tree_oid parent →
  validate_todos repo old new = index_last false new.
Proof.
  intros Hold%oid_set_size_NoDup Hnew%oid_set_size_NoDup Hfor Hdrop Hp Hload
         Htree.
  rewrite has_foreign_difference in Hfor. unfold validate_todos.
  rewrite decide_True by done. rewrite decide_False by (intros H; done).
  rewrite decide_False by done. rewrite Hdrop.
  assert (drop_bubbles repo [c] = Ok []) as ->; [|done].
  apply drop_bubbles_walk.
  eapply (walk_discard repo c [] p parent [] c []); eauto.
  - intros b Hb. by apply elem_of_nil in Hb.
  - constructor.
Qed.

(** X2 at the swap of two picks. *)
Lemma validate_todos_reorder_witness :
  plan_oids [pick_B; pick_A] ≡ₚ plan_oids [pick_A; pick_B] ∧
  NoDup (plan_oids [pick_A; pick_B]) ∧
  validate_todos repo0 [pick_A; pick_B] [pick_B; pick_A] = Ok ().
Proof.
  assert (plan_oids [pick_B; pick_A] ≡ₚ plan_oids [pick_A; pick_B]) as Hperm.
  { apply perm_swap. }
  assert (NoDup (plan_oids [pick_A; pick_B])) as Hnd.
  { apply (bool_decide_unpack _). vm_compute. exact I. }
  split; [exact Hperm|]. split; [exact Hnd|].
  destruct (validate_todos_reorder repo0 [pick_A; pick_B] [pick_B; pick_A]
              Hperm Hnd) as [-> _].
  reflexivity.
Defined.

(** X3 at the drop of the root commit. *)
Lemma validate_todos_keeps_roots_and_merges_witness :
  dropped [pick_root; pick_A] [pick_A] = [root_commit] ∧
  length (parent_oids root_commit) ≠ 1 ∧
  validate_todos repo0 [pick_root; pick_A] [pick_A]
  = Raise (ValueError (CantDropNonempty (oid root_commit))).
Proof.
  assert (dropped [pick_root; pick_A] [pick_A] = [root_commit]) as Hdrop.
  { vm_compute. reflexivity. }
  assert (length (parent_oids root_commit) ≠ 1) as Hpar by (simpl; lia).
  split; [exact Hdrop|]. split; [exact Hpar|].
  apply (validate_todos_keeps_roots_and_merges repo0 [pick_root; pick_A]
           [pick_A] root_commit []); [| | |exact Hdrop|exact Hpar].
  - apply (bool_decide_unpack _). vm_compute. exact I.
  - apply (bool_decide_unpack _). vm_compute. exact I.
  - intros (s & Hs & Hout). apply list_elem_of_singleton in Hs as ->.
    apply Hout. vm_compute. apply list_elem_of_In. right. left. reflexivity.
Defined.

(** X4 at the drop of the empty commit on top of [commit_A]. *)
Lemma validate_todos_drops_empty_commit_witness :
  dropped [pick_A; pick_E] [pick_A] = [commit_E] ∧
  tree_oid commit_E = tree_oid commit_A ∧
  validate_todos repo0 [pick_A; pick_E] [pick_A] = Ok ().
Proof.
  assert (dropped [pick_A; pick_E] [pick_A] = [commit_E]) as Hdrop.
  { vm_compute. reflexivity. }
  split; [exact Hdrop|]. split; [reflexivity|].
  rewrite (validate_todos_drops_empty_commit repo0 [pick_A; pick_E] [pick_A]
             commit_E (hex40 "a") commit_A);
    [reflexivity| | | |exact Hdrop|reflexivity|reflexivity|reflexivity].
  - apply (bool_decide_unpack _). vm_compute. exact I.
  - apply (bool_decide_unpack _). vm_compute. exact I.
  - intros (s & Hs & Hout). apply list_elem_of_singleton in Hs as ->.
    apply Hout. vm_compute. apply list_elem_of_In. left. reflexivity.
Defined.


(** ** Autosquash matcher *)

Lemma strip_prefixes_fuel_no_prefix fuel s :
  startswith s fixup_prefix || startswith s squash_prefix = false →
  strip_prefixes_fuel fuel s = Some (Ok s).
Proof. intros H. destruct fuel; simpl; by rewrite H. Qed.

Lemma strip_prefixes_no_prefix s :
  startswith s fixup_prefix || startswith s squash_prefix = false →
  strip_prefixes s = Ok s.
Proof.
  intros H. unfold strip_prefixes. by rewrite strip_prefixes_fuel_no_prefix.
Qed.

Lemma add_autosquash_step_plain repo step picks :
  startswith (summary (commit step)) fixup_prefix
  || startswith (summary (commit step)) squash_prefix = false →
  add_autosquash_step repo step picks = Ok (picks ++ [[step]]).
Proof.
  intros H. unfold add_autosquash_step.
  rewrite strip_prefixes_no_prefix by done. simpl.
  by rewrite decide_False by (intros Hne; by apply Hne).
Qed.

(** X5. Autosquash leaves a plan alone when no commit of it has a summary
    that starts with the fixup or the squash prefix: it returns the same
    steps in the same order, and asks the store for nothing. *)
Theorem autosquash_todos_plain repo todos :
  Forall (fun step =>
            startswith (summary (commit step)) fixup_prefix
            || startswith (summary (commit step)) squash_prefix = false)
         todos →
  autosquash_todos repo todos = Ok todos.
Proof.
  intros Hall. unfold autosquash_todos.
  assert (∀ picks,
            foldM (fun picks step => add_autosquash_step repo step picks)
                  todos picks
            = Ok (picks ++ ((fun step => [step]) <$> todos))) as ->.
  { induction Hall as [|step todos Hstep _ IH]; intros picks; simpl.
    - by rewrite app_nil_r.
    - rewrite add_autosquash_step_plain by done. simpl.
      rewrite IH. by rewrite <- app_assoc. }
  simpl. f_equal. clear Hall. induction todos as [|step todos IH]; [done|].
  simpl. f_equal. exact IH.
Qed.

Lemma append_to_first_Some p new_step picks picks' :
  append_to_first p new_step picks = Some picks' ↔
  ∃ before seq after,
    picks = before ++ seq :: after ∧
    picks' = before ++ (seq ++ [new_step]) :: after ∧
    p seq = true ∧ ∀ b, b ∈ before → p b = false.
Proof.
  revert picks'. induction picks as [|x picks IH]; intros picks'; simpl.
  - split; [done|]. intros (before & ? & ? & E & _). by destruct before.
  - destruct (p x) eqn:Hx.
    + split.
      * intros [= <-]. exists [], x, picks. split_and!; [done..|].
        intros b Hb. by apply elem_of_nil in Hb.
      * intros ([|y before] & seq & after & E & -> & Hp & Hb); simplify_eq/=;
          [done|].
        rewrite Hb in Hx; [done|]. left.
    + rewrite fmap_Some. split.
      * intros (r & Hr%IH & ->).
        destruct Hr as (before & seq & after & -> & -> & Hp & Hb).
        exists (x :: before), seq, after.
        split_and!; [done..|]. intros b [->|?]%elem_of_cons; auto.
      * intros ([|y before'] & seq' & after' & E & -> & Hp' & Hb');
          simplify_eq/=; [congruence|].
        exists (before' ++ (seq' ++ [new_step]) :: after'). split; [|done].
        apply IH. exists before', seq', after'. split_and!; [done..|].
        intros b ?. apply Hb'. by right.
Qed.

Lemma append_to_first_concat p new_step picks picks' :
  append_to_first p new_step picks = Some picks' →
  concat picks' ≡ₚ new_step :: concat picks.
Proof.
  intros (before & seq & after & -> & -> & _)%append_to_first_Some.
  rewrite !concat_app. simpl. rewrite <- !app_assoc. simpl.
  by rewrite <- !Permutation_middle.
Qed.

(** What one call adds to the sequences. *)
Lemma add_autosquash_step_adds repo step picks picks' :
  add_autosquash_step repo step picks = Ok picks' →
  ∃ step',
    concat picks' ≡ₚ step' :: concat picks ∧
    (step' = step ∨ step' = new_CommitStep FIXUP (commit step)
     ∨ step' = new_CommitStep SQUASH (commit step)).
Proof.
  unfold add_autosquash_step.
  intros (needle & Hneedle & H)%bind_Ok.
  assert (concat (picks ++ [[step]]) ≡ₚ step :: concat picks) as Hfall.
  { rewrite concat_app. simpl. by rewrite <- Permutation_cons_append. }
  case_decide as Hne; cycle 1.
  { injection H as <-. eauto. }
  apply bind_Ok in H as (new_step & Hnew & H).
  assert (new_step = new_CommitStep FIXUP (commit step)
          ∨ new_step = new_CommitStep SQUASH (commit step)) as Hkind.
  { repeat case_match; simplify_eq; auto. }
  destruct (append_to_first (lead_summary_startswith needle) new_step picks)
    as [r|] eqn:Hr.
  { simpl in H. injection H as <-. apply append_to_first_concat in Hr.
    exists new_step. split; [done|]. tauto. }
  destruct (get_commit repo needle) as [[| |]|target]; simpl in H.
  - injection H as <-. eauto.
  - injection H as <-. eauto.
  - done.
  - destruct (append_to_first
                (fun seq => existsb (fun s => Commit_eqb (commit s) target) seq)
                new_step picks) as [r|] eqn:Hr'.
    + injection H as <-. apply append_to_first_concat in Hr'.
      exists new_step. split; [done|]. tauto.
    + injection H as <-. eauto.
Qed.

(** X6. Autosquash loses no commit and invents none: the steps it returns
    carry the commits of the plan it was given, each as many times, and
    every step it returns is a step of that plan or a new fixup or squash
    step for the commit of one. *)
Theorem autosquash_todos_keeps_commits repo todos result_ :
  autosquash_todos repo todos = Ok result_ →
  commit <$> result_ ≡ₚ commit <$> todos ∧
  ∀ step', step' ∈ result_ →
    ∃ step, step ∈ todos ∧
      (step' = step ∨ step' = new_CommitStep FIXUP (commit step)
       ∨ step' = new_CommitStep SQUASH (commit step)).
Proof.
  unfold autosquash_todos. intros (picks & Hfold & [= <-])%bind_Ok.
  assert (∀ picks0 picks1,
            foldM (fun picks step => add_autosquash_step repo step picks)
                  todos picks0 = Ok picks1 →
            ∃ added,
              concat picks1 ≡ₚ added ++ concat picks0 ∧
              commit <$> added ≡ₚ commit <$> todos ∧
              ∀ step', step' ∈ added →
                ∃ step, step ∈ todos ∧
                  (step' = step ∨ step' = new_CommitStep FIXUP (commit step)
                   ∨ step' = new_CommitStep SQUASH (commit step))) as Hgen.
  { clear. induction todos as [|step todos IH]; intros picks0 picks1; simpl.
    - intros [= <-]. exists []. split_and!; [done..|].
      intros ? Hin. by apply elem_of_nil in Hin.
    - intros (picks' & Hstep & Hrest)%bind_Ok.
      apply add_autosquash_step_adds in Hstep as (step' & Hperm & Hkind).
      apply IH in Hrest as (added & Hperm' & Hcommits & Hfrom).
      exists (added ++ [step']). split_and!.
      + rewrite Hperm', Hperm, <- app_assoc. done.
      + rewrite fmap_app, Hcommits. simpl.
        rewrite <- Permutation_cons_append.
        by destruct Hkind as [->|[->| ->]].
      + intros s [Hs|Hs%list_elem_of_singleton]%elem_of_app.
        * destruct (Hfrom s Hs) as (t & Ht & Hk). exists t. split; [by right|done].
        * subst s. exists step. split; [left|done]. }
  destruct (Hgen [] picks Hfold) as (added & Hperm & Hcommits & Hfrom).
  simpl in Hperm. rewrite app_nil_r in Hperm. split.
  - by rewrite Hperm.
  - intros step' Hin. apply Hfrom. by rewrite <- Hperm.
Qed.

Lemma autosquash_todos_plain_witness :
  autosquash_todos repo0 [pick_A; pick_B; pick_C] = Ok [pick_A; pick_B; pick_C].
Proof.
  apply (autosquash_todos_plain repo0 [pick_A; pick_B; pick_C]).
  repeat constructor.
Defined.

Lemma autosquash_todos_keeps_commits_witness :
  autosquash_todos repo0 [pick_A; pick_B; pick_C; pick_fixup_of_B]
  = Ok [pick_A; pick_B; new_CommitStep FIXUP fixup_of_B; pick_C] ∧
  commit <$> [pick_A; pick_B; new_CommitStep FIXUP fixup_of_B; pick_C]
  ≡ₚ commit <$> [pick_A; pick_B; pick_C; pick_fixup_of_B].
Proof.
  assert (autosquash_todos repo0 [pick_A; pick_B; pick_C; pick_fixup_of_B]
          = Ok [pick_A; pick_B; new_CommitStep FIXUP fixup_of_B; pick_C]) as H.
  { vm_compute. reflexivity. }
  split; [exact H|].
  exact (proj1 (autosquash_todos_keeps_commits repo0 _ _ H)).
Defined.

Lemma strip_prefixes_fuel_raises fuel needle e :
  strip_prefixes_fuel fuel needle = Some (Raise e) → e = IndexError.
Proof.
  revert needle. induction fuel as [|fuel IH]; intros needle; simpl.
  - repeat case_match; congruence.
  - repeat case_match; try congruence. apply IH.
Qed.

Lemma strip_prefixes_raises needle e :
  strip_prefixes needle = Raise e → e = IndexError.
Proof.
  unfold strip_prefixes.
  destruct (strip_prefixes_fuel _ needle) as [[?|?]|] eqn:H; try done.
  - intros [= <-]. by apply strip_prefixes_fuel_raises in H.
  - by apply strip_prefixes_fuel_enough in H.
Qed.

Lemma strip_prefixes_changed needle summary_ :
  strip_prefixes summary_ = Ok needle →
  needle ≠ summary_ →
  startswith summary_ fixup_prefix || startswith summary_ squash_prefix = true.
Proof.
  unfold strip_prefixes. intros H Hne.
  destruct (startswith summary_ fixup_prefix || startswith summary_ squash_prefix)
    eqn:Htest; [done|].
  rewrite strip_prefixes_fuel_no_prefix in H by done. congruence.
Qed.

Lemma startswith_shorter s p q :
  startswith s (p +:+ q) = true → startswith s p = true.
Proof.
  unfold startswith. revert s. induction p as [|c p IH]; intros s.
  - by destruct s.
  - rewrite append_cons. destruct s as [|d s]; simpl; [done|].
    destruct (ascii_dec c d); [apply IH|done].
Qed.

(** The assertion of [add_autosquash_step] never fails: a summary that the
    loop shortened starts with one of the two prefixes, bang included. *)
Lemma autosquash_assertion_holds needle summary_ :
  strip_prefixes summary_ = Ok needle →
  needle ≠ summary_ →
  startswith summary_ "fixup!" = false →
  startswith summary_ "squash!" = true.
Proof.
  intros H Hne Hfix.
  apply strip_prefixes_changed in H; [|done].
  apply orb_true_iff in H as [H|H].
  - apply (startswith_shorter _ "fixup!" " ") in H. congruence.
  - by apply (startswith_shorter _ "squash!" " ") in H.
Qed.

Lemma add_autosquash_step_raises repo step picks e :
  add_autosquash_step repo step picks = Raise e →
  e = IndexError ∨ ∃ msg, e = External (ExternalFailure msg).
Proof.
  unfold add_autosquash_step.
  destruct (strip_prefixes (summary (commit step))) as [needle|e'] eqn:Hneedle;
    simpl.
  2: { intros [= <-]. left. by apply strip_prefixes_raises in Hneedle. }
  case_decide as Hne; [|done].
  destruct (startswith (summary (commit step)) "fixup!") eqn:Hfix; simpl.
  - repeat case_match; try done. intros [= <-]. right. eauto.
  - rewrite (autosquash_assertion_holds _ _ Hneedle Hne Hfix). simpl.
    repeat case_match; try done. intros [= <-]. right. eauto.
Qed.

(** X7. The only exceptions that leave autosquash are the [IndexError] of
    a summary that is a bare prefix, and a failure of the object store that
    is neither a [ValueError] nor a missing object: those two are caught.
    The assertion on the squash prefix never fails. *)
Theorem autosquash_todos_raises repo todos e :
  autosquash_todos repo todos = Raise e →
  e = IndexError ∨ ∃ msg, e = External (ExternalFailure msg).
Proof.
  unfold autosquash_todos.
  assert (∀ picks,
            foldM (fun picks step => add_autosquash_step repo step picks)
                  todos picks = Raise e →
            e = IndexError ∨ ∃ msg, e = External (ExternalFailure msg)) as Hfold.
  { induction todos as [|step todos IH]; intros picks; simpl; [done|].
    destruct (add_autosquash_step repo step picks) as [picks'|e'] eqn:Hstep;
      simpl.
    - apply IH.
    - intros [= <-]. by apply add_autosquash_step_raises in Hstep. }
  destruct (foldM _ todos []) as [picks|e'] eqn:H; simpl; [done|].
  intros [= <-]. by apply Hfold in H.
Qed.

(** X8. A commit whose summary carries a fixup or squash prefix is put at
    the end of the first sequence whose leading commit has a summary that
    starts with the rest of that summary, as a fixup or a squash step; the
    object store is not asked. *)
Theorem add_autosquash_step_first_summary_match repo step picks needle
    before seq after :
  strip_prefixes (summary (commit step)) = Ok needle →
  needle ≠ summary (commit step) →
  picks = before ++ seq :: after →
  lead_summary_startswith needle seq = true →
  (∀ b, b ∈ before → lead_summary_startswith needle b = false) →
  add_autosquash_step repo step picks =
  Ok (before ++
      (seq ++ [new_CommitStep
                 (if startswith (summary (commit step)) "fixup!"
                  then FIXUP else SQUASH)
                 (commit step)]) :: after).
Proof.
  intros Hneedle Hne -> Hseq Hbefore. unfold add_autosquash_step.
  rewrite Hneedle. simpl. rewrite decide_True by done.
  assert (∀ new_step,
            append_to_first (lead_summary_startswith needle) new_step
                            (before ++ seq :: after)
            = Some (before ++ (seq ++ [new_step]) :: after)) as Hfirst.
  { intros new_step. apply append_to_first_Some.
    exists before, seq, after. done. }
  destruct (startswith (summary (commit step)) "fixup!") eqn:Hfix; simpl.
  - by rewrite Hfirst.
  - rewrite (autosquash_assertion_holds _ _ Hneedle Hne Hfix). simpl.
    by rewrite Hfirst.
Qed.

Lemma autosquash_todos_raises_witness :
  autosquash_todos repo0 [new_CommitStep PICK bare_fixup_commit]
  = Raise IndexError ∧
  (IndexError = IndexError ∨ ∃ msg, IndexError = External (ExternalFailure msg)).
Proof.
  assert (autosquash_todos repo0 [new_CommitStep PICK bare_fixup_commit]
          = Raise IndexError) as H.
  { vm_compute. reflexivity. }
  split; [exact H|].
  exact (autosquash_todos_raises repo0 _ _ H).
Defined.

Lemma add_autosquash_step_first_summary_match_witness :
  add_autosquash_step repo0 pick_fixup_of_B [[pick_A]; [pick_B]; [pick_C]]
  = Ok [[pick_A]; [pick_B; new_CommitStep FIXUP fixup_of_B]; [pick_C]].
Proof.
  apply (add_autosquash_step_first_summary_match repo0 pick_fixup_of_B
           [[pick_A]; [pick_B]; [pick_C]] "commit two"
           [[pick_A]] [pick_B] [[pick_C]]).
  - vm_compute. reflexivity.
  - apply (bool_decide_unpack _). vm_compute. exact I.
  - reflexivity.
  - vm_compute. reflexivity.
  - intros b Hb. apply list_elem_of_singleton in Hb as ->.
    vm_compute. reflexivity.
Defined.

(** ** Step parsing *)

(** The greedy star takes a whole run when what follows the run matches. *)
Lemma re_star_greedy {X} k w rest (cont : string -> string -> option X) x :
  all_in k w = true →
  starts_outside k rest = true →
  cont w rest = Some x →
  re_star k (w +:+ rest) cont = Some x.
Proof.
  revert cont. induction w as [|c w IH]; intros cont Hw Hrest Hcont.
  - rewrite append_nil. destruct rest as [|c rest]; simpl; [done|].
    simpl in Hrest. apply negb_true_iff in Hrest. by rewrite Hrest.
  - rewrite append_cons. simpl in *. apply andb_true_iff in Hw as [Hc Hw].
    rewrite Hc.
    by rewrite (IH (fun m rest => cont (String c m) rest) Hw Hrest Hcont).
Qed.

Lemma re_plus_greedy {X} k w rest (cont : string -> string -> option X) x :
  is_run k w = true →
  starts_outside k rest = true →
  cont w rest = Some x →
  re_plus k (w +:+ rest) cont = Some x.
Proof.
  intros [Hne Hw]%andb_true_iff Hrest Hcont.
  destruct w as [|c w]; [done|].
  rewrite append_cons. simpl in *. apply andb_true_iff in Hw as [Hc Hw].
  rewrite Hc.
  by apply (re_star_greedy k w rest (fun m rest => cont (String c m) rest)).
Qed.

(** The star fails when the continuation fails at every split. *)
Lemma re_star_None {X} k s (cont : string -> string -> option X) :
  (∀ m rest, s = m +:+ rest → cont m rest = None) →
  re_star k s cont = None.
Proof.
  revert cont. induction s as [|c s IH]; intros cont Hcont; simpl.
  - by apply Hcont.
  - assert (cont EmptyString (String c s) = None) as Hempty by by apply Hcont.
    destruct (in_class k c); [|done].
    rewrite IH; [done|]. intros m rest ->. by apply Hcont.
Qed.

Lemma is_run_starts_outside_space w rest :
  is_run NonSpace w = true → starts_outside Space (w +:+ rest) = true.
Proof.
  intros [Hne Hw]%andb_true_iff. destruct w as [|c w]; [done|].
  rewrite append_cons. simpl in *. apply andb_true_iff in Hw as [Hc _].
  by rewrite Hc.
Qed.

Lemma is_run_starts_outside_nonspace ws rest :
  is_run Space ws = true → starts_outside NonSpace (ws +:+ rest) = true.
Proof.
  intros [Hne Hw]%andb_true_iff. destruct ws as [|c ws]; [done|].
  rewrite append_cons. simpl in *. apply andb_true_iff in Hw as [Hc _].
  by rewrite Hc.
Qed.

(** A line of two fields. *)
Lemma match_todo_entry_two word ws operand_ :
  is_run NonSpace word = true →
  is_run Space ws = true →
  is_run NonSpace operand_ = true →
  match_todo_entry (word +:+ (ws +:+ operand_)) = Some (word, operand_, None).
Proof.
  intros Hword Hws Hop. unfold match_todo_entry.
  apply re_plus_greedy; [done|by apply is_run_starts_outside_nonspace|].
  apply re_plus_greedy; [done| |].
  { rewrite <- (append_empty_r operand_).
    by apply is_run_starts_outside_space. }
  rewrite <- (append_empty_r operand_) at 1.
  apply re_plus_greedy; [done..|]. done.
Qed.

(** A line of three fields; the third may be empty. *)
Lemma match_todo_entry_three word ws1 operand_ ws2 summary_ :
  is_run NonSpace word = true →
  is_run Space ws1 = true →
  is_run NonSpace operand_ = true →
  is_run Space ws2 = true →
  starts_outside Space summary_ = true →
  all_in Dot summary_ = true →
  match_todo_entry (word +:+ (ws1 +:+ (operand_ +:+ (ws2 +:+ summary_))))
  = Some (word, operand_, Some summary_).
Proof.
  intros Hword Hws1 Hop Hws2 Hout Hdot. unfold match_todo_entry.
  apply re_plus_greedy; [done|by apply is_run_starts_outside_nonspace|].
  apply re_plus_greedy; [done|by apply is_run_starts_outside_space|].
  apply re_plus_greedy; [done|by apply is_run_starts_outside_nonspace|].
  rewrite (re_plus_greedy Space ws2 summary_ _ (word, operand_, Some summary_));
    [done..|].
  rewrite <- (append_empty_r summary_) at 1.
  by apply re_star_greedy.
Qed.

(** X9. A todo line of an action word, an operand and a summary, with
    whitespace between them, parses to a step of the action the word stands
    for, on the commit the operand names, whose message is the message of
    that commit with the summary replaced by the one of the line. *)
Theorem parse_step_commit_entry repo word ws1 operand_ ws2 summary_ a c :
  is_run NonSpace word = true →
  is_run Space ws1 = true →
  is_run NonSpace operand_ = true →
  is_run Space ws2 = true →
  starts_outside Space summary_ = true →
  all_in Dot summary_ = true →
  parse_action (decode_lossy repo word) = Ok (inl a) →
  get_commit repo (decode_lossy repo operand_) = inr c →
  parse_step repo (word +:+ (ws1 +:+ (operand_ +:+ (ws2 +:+ summary_))))
  = Ok (inl (set_message (new_CommitStep a c)
                         (message_with_edited_summary repo c summary_))).
Proof.
  intros Hword Hws1 Hop Hws2 Hout Hdot Haction Hcommit. unfold parse_step.
  rewrite match_todo_entry_three by done.
  rewrite Haction. simpl. rewrite Hcommit. done.
Qed.

(** X10. A todo line of two fields parses to a step that keeps the message
    of its commit: without a summary on the line the message is not
    edited. *)
Theorem parse_step_without_summary repo word ws operand_ a c :
  is_run NonSpace word = true →
  is_run Space ws = true →
  is_run NonSpace operand_ = true →
  parse_action (decode_lossy repo word) = Ok (inl a) →
  get_commit repo (decode_lossy repo operand_) = inr c →
  parse_step repo (word +:+ (ws +:+ operand_)) = Ok (inl (new_CommitStep a c)) ∧
  step_message (new_CommitStep a c) = message c.
Proof.
  intros Hword Hws Hop Haction Hcommit. unfold parse_step.
  rewrite match_todo_entry_two by done.
  rewrite Haction. simpl. rewrite Hcommit. done.
Qed.

(** X11. What [to_bytes] writes for a commit-less step, [parse_step] reads
    back as that step, when the operand is one word and the decoding keeps
    the action word. The object store is not asked. *)
Theorem parse_step_to_bytes repo x :
  is_run NonSpace (operand x) = true →
  decode_lossy repo (CommitlessAction_value (extra_action x))
  = CommitlessAction_value (extra_action x) →
  parse_step repo (to_bytes x) = Ok (inr x).
Proof.
  intros Hop Hdecode. unfold parse_step, to_bytes.
  rewrite append_assoc.
  rewrite (match_todo_entry_two _ " " (operand x));
    [|by destruct (extra_action x)|done|done].
  rewrite Hdecode. destruct x as [[] op]; done.
Qed.

(** X12. For a commit-less action, whatever follows the operand on the line
    is dropped: the step that is parsed carries the operand only. *)
Theorem parse_step_commitless_drops_summary repo word ws1 operand_ ws2
    summary_ a :
  is_run NonSpace word = true →
  is_run Space ws1 = true →
  is_run NonSpace operand_ = true →
  is_run Space ws2 = true →
  starts_outside Space summary_ = true →
  all_in Dot summary_ = true →
  parse_action (decode_lossy repo word) = Ok (inr a) →
  parse_step repo (word +:+ (ws1 +:+ (operand_ +:+ (ws2 +:+ summary_))))
  = Ok (inr {| extra_action := a; operand := operand_ |}).
Proof.
  intros Hword Hws1 Hop Hws2 Hout Hdot Haction. unfold parse_step.
  rewrite match_todo_entry_three by done.
  by rewrite Haction.
Qed.

(** X13. A line without whitespace, the empty line among them, is no todo
    entry: [parse_step] raises the format error and asks nothing of the
    object store. *)
Theorem parse_step_one_word repo instr :
  all_in NonSpace instr = true →
  parse_step repo instr
  = Raise (ValueError (MalformedTodoEntry (decode_lossy repo instr))).
Proof.
  intros Hinstr. unfold parse_step.
  assert (match_todo_entry instr = None) as ->; [|done].
  unfold match_todo_entry. destruct instr as [|c instr]; [done|].
  simpl in *. apply andb_true_iff in Hinstr as [Hc Hinstr]. rewrite Hc.
  apply re_star_None. intros m rest ->.
  assert (starts_outside Space rest = true ∧ all_in NonSpace rest = true)
    as [Hout Hrest].
  { clear Hc. induction m as [|d m IH].
    - rewrite append_nil in Hinstr. split; [|done].
      destruct rest as [|d rest]; [done|]. simpl in *.
      apply andb_true_iff in Hinstr as [Hd _]. by rewrite Hd.
    - rewrite append_cons in Hinstr. simpl in Hinstr.
      apply andb_true_iff in Hinstr as [_ Hinstr]. by apply IH. }
  destruct rest as [|d rest]; [done|]. simpl in *.
  apply negb_true_iff in Hout. by rewrite Hout.
Qed.

Lemma parse_step_commit_entry_witness :
  parse_step repo0 ("pick" +:+ (" " +:+ ("aaaaaaaaaaaa" +:+ (" " +:+ "first commit"))))
  = Ok (inl (set_message (new_CommitStep PICK commit_A)
               (message_with_edited_summary repo0 commit_A "first commit"))).
Proof.
  apply (parse_step_commit_entry repo0 "pick" " " "aaaaaaaaaaaa" " "
           "first commit" PICK commit_A);
    vm_compute; reflexivity.
Defined.

Lemma parse_step_without_summary_witness :
  parse_step repo0 ("r" +:+ (" " +:+ "bbbb"))
  = Ok (inl (new_CommitStep REWORD commit_B)) ∧
  step_message (new_CommitStep REWORD commit_B) = message commit_B.
Proof.
  apply (parse_step_without_summary repo0 "r" " " "bbbb" REWORD commit_B);
    vm_compute; reflexivity.
Defined.

Lemma parse_step_to_bytes_witness :
  parse_step repo0
    (to_bytes {| extra_action := UPDATE_REF; operand := "refs/heads/topic" |})
  = Ok (inr {| extra_action := UPDATE_REF; operand := "refs/heads/topic" |}).
Proof.
  apply (parse_step_to_bytes repo0
           {| extra_action := UPDATE_REF; operand := "refs/heads/topic" |});
    vm_compute; reflexivity.
Defined.

Lemma parse_step_commitless_drops_summary_witness :
  parse_step repo0
    ("update-ref" +:+ (" " +:+ ("refs/heads/topic" +:+ (" " +:+ "and more"))))
  = Ok (inr {| extra_action := UPDATE_REF; operand := "refs/heads/topic" |}).
Proof.
  apply (parse_step_commitless_drops_summary repo0 "update-ref" " "
           "refs/heads/topic" " " "and more" UPDATE_REF);
    vm_compute; reflexivity.
Defined.

Lemma parse_step_one_word_witness :
  parse_step repo0 "pick"
  = Raise (ValueError (MalformedTodoEntry (decode_lossy repo0 "pick"))).
Proof.
  apply (parse_step_one_word repo0 "pick"). vm_compute. reflexivity.
Defined.

(** ** Re-association of the edited entries *)

Lemma foldM_app {A S} (f : S -> A -> result S) l1 l2 s :
  foldM f (l1 ++ l2) s = foldM f l1 s ≫= foldM f l2.
Proof.
  revert s. induction l1 as [|x l1 IH]; intros s; simpl; [done|].
  destruct (f s x); simpl; [apply IH|done].
Qed.

Lemma append_to_last_snoc result_ step extra :
  append_to_last (result_ ++ [step]) extra
  = result_ ++ [append_extrastep step extra].
Proof.
  induction result_ as [|a result_ IH]; [done|].
  simpl in *. rewrite IH. by destruct result_.
Qed.

Lemma append_to_last_length result_ extra :
  length (append_to_last result_ extra) = length result_.
Proof.
  induction result_ as [|a result_ IH]; [done|].
  simpl in *. destruct result_; [done|]. simpl in *. by rewrite IH.
Qed.

Lemma reassociate_extras result_ step extras :
  foldM reassociate (inr <$> extras) (result_ ++ [step])
  = Ok (result_ ++ [foldl append_extrastep step extras]).
Proof.
  revert step. induction extras as [|extra extras IH]; intros step; [done|].
  simpl. rewrite decide_False by (rewrite length_app; simpl; lia).
  simpl. rewrite append_to_last_snoc. apply IH.
Qed.

Lemma reassociate_nonempty polys result_ :
  result_ ≠ [] → ∃ r, foldM reassociate polys result_ = Ok r.
Proof.
  revert result_. induction polys as [|[step|extra] polys IH];
    intros result_ Hne; simpl.
  - eauto.
  - apply IH. by destruct result_.
  - rewrite decide_False by by destruct result_.
    simpl. apply IH. intros Hnil.
    apply (f_equal length) in Hnil. rewrite append_to_last_length in Hnil.
    by destruct result_.
Qed.

(** X14. The re-association loop of [edit_todos] fails in one case only: the
    first entry has a commit-less action, so that there is no step to hang
    it on; the error is the one on the base commit. Any other list of
    entries is re-associated. *)
Theorem reassociate_fails_on_leading_extrastep polys e :
  foldM reassociate polys [] = Raise e ↔
  e = ValueError NoBaseCommit ∧ ∃ extra rest, polys = inr extra :: rest.
Proof.
  destruct polys as [|[step|extra] polys]; simpl.
  - split; [done|]. by intros (_ & ? & ? & ?).
  - destruct (reassociate_nonempty polys [step]) as (r & ->); [done|].
    split; [done|]. by intros (_ & ? & ? & ?).
  - split; [intros [= <-]; eauto|]. by intros (-> & _).
Qed.

Lemma reassociate_groups_onto
    (groups : list (CommitStep * list CommitlessStep)) result_ :
  foldM reassociate
        (groups ≫= fun '(step, extras) => inl step :: (inr <$> extras))
        result_
  = Ok (result_ ++
        ((fun '(step, extras) => foldl append_extrastep step extras)
           <$> groups)).
Proof.
  revert result_. induction groups as [|[step extras] groups IH];
    intros result_.
  - simpl. by rewrite app_nil_r.
  - rewrite bind_cons, fmap_cons. simpl.
    rewrite foldM_app, reassociate_extras. simpl.
    rewrite IH. by rewrite <- app_assoc.
Qed.

(** X15. Re-association hangs every commit-less entry on the closest commit
    entry above it, in the order of the entries: a list made of commit
    entries, each followed by commit-less entries, comes back as the
    commit steps, each with those entries added to its extra steps. *)
Theorem reassociate_groups
    (groups : list (CommitStep * list CommitlessStep)) :
  foldM reassociate
        (groups ≫= fun '(step, extras) => inl step :: (inr <$> extras)) []
  = Ok ((fun '(step, extras) => foldl append_extrastep step extras)
          <$> groups).
Proof. apply (reassociate_groups_onto groups []). Qed.

Lemma validate_todos_Ok repo old new :
  validate_todos repo old new = Ok () →
  NoDup (plan_oids new) ∧
  (∀ step, step ∈ new → oid (commit step) ∈ plan_oids old) ∧
  index_steps_trail new.
Proof.
  unfold validate_todos.
  case_decide as Hold; [|done].
  case_decide as Hnew; [done|].
  case_decide as Hfor; [done|].
  intros (dropped_list & _ & H)%bind_Ok.
  destruct dropped_list; [|done].
  split_and!.
  - by apply oid_set_size_NoDup.
  - intros step Hin.
    destruct (decide (oid (commit step) ∈ plan_oids old)) as [|Hout]; [done|].
    exfalso. apply (proj1 (has_foreign_difference old new)); [|done].
    by exists step.
  - by apply index_last_false.
Qed.

(** X16. Every plan that [edit_todos] returns went through the validator:
    it has no commit twice, every commit of it is a commit of the plan
    that was edited, its index steps come last, and it has no more steps
    than that plan. *)
Theorem edit_todos_returns_valid_plan repo todos msgedit result_ :
  edit_todos repo todos msgedit = Ok result_ →
  NoDup (plan_oids result_) ∧
  (∀ step, step ∈ result_ → oid (commit step) ∈ plan_oids todos) ∧
  index_steps_trail result_ ∧
  length result_ ≤ length todos.
Proof.
  unfold edit_todos.
  intros (polys & _ & (r & _ & ([] & Hvalid & [= <-])%bind_Ok)%bind_Ok)%bind_Ok.
  apply validate_todos_Ok in Hvalid as (Hnd & Hsub & Htrail).
  split_and!; [done..|].
  rewrite <- (length_fmap (fun step => oid (commit step)) r),
    <- (length_fmap (fun step => oid (commit step)) todos).
  apply submseteq_length, NoDup_submseteq; [done|].
  intros o (step & -> & Hin)%list_elem_of_fmap. by apply Hsub.
Qed.

Lemma edit_todos_returns_valid_plan_witness :
  edit_todos repo0 [pick_A; pick_B] false = Ok [pick_A; pick_B] ∧
  NoDup (plan_oids [pick_A; pick_B]) ∧
  index_steps_trail [pick_A; pick_B].
Proof.
  assert (edit_todos repo0 [pick_A; pick_B] false = Ok [pick_A; pick_B]) as H.
  { vm_compute. reflexivity. }
  split; [exact H|].
  destruct (edit_todos_returns_valid_plan repo0 _ _ _ H)
    as (Hnd & _ & Htrail & _).
  exact (conj Hnd Htrail).
Defined.

(** ** Executor *)

Lemma apply_step_raised repo reauthor st known_state step e st' :
  apply_step repo reauthor st known_state step = Raised e st' →
  (e = ValueError FixupFirst ∧ action step = FIXUP ∧ current st = None)
  ∨ (e = ValueError SquashFirst ∧ action step = SQUASH ∧ current st = None)
  ∨ ∃ x, e = External x.
Proof.
  unfold apply_step, after_rebase. simpl.
  destruct (rebase repo _ _ _) as [x|r]; [intros [= <- _]; eauto|].
  unfold transition.
  destruct (action step) eqn:Haction, (current st) as [cur|] eqn:Hcur; simpl;
    repeat match goal with
           | |- context [call ?c] => destruct c; simpl
           end;
    rewrite ?significant_extrasteps_apply;
    try done; intros [= <- _]; eauto.
Qed.

Lemma apply_step_break repo reauthor st known_state step st' :
  apply_step repo reauthor st known_state step = Break st' →
  action step = INDEX ∧ st' = begin_step st known_state step.
Proof.
  unfold apply_step, after_rebase. simpl.
  destruct (rebase repo _ _ _) as [x|r]; [done|].
  unfold transition.
  destruct (action step) eqn:Haction, (current st) as [cur|] eqn:Hcur; simpl;
    repeat match goal with
           | |- context [call ?c] => destruct c; simpl
           end;
    rewrite ?significant_extrasteps_apply;
    try done; by intros [= <-].
Qed.

Lemma apply_step_continue repo reauthor st known_state step st' :
  apply_step repo reauthor st known_state step = Continue st' →
  ∃ cur,
    current st' = Some cur ∧
    action step ≠ INDEX ∧
    refs st' = foldl (fun r extra => update_head r (operand extra) cur)
                     (refs st) (significant_extrasteps step) ∧
    printed st' = printed st ++ [progress_line repo step cur] ∧
    rebase_calls st' = rebase_calls (begin_step st known_state step).
Proof.
  unfold apply_step, after_rebase. simpl.
  destruct (rebase repo _ _ _) as [x|r]; [done|].
  unfold transition.
  destruct (action step) eqn:Haction, (current st) as [cur|] eqn:Hcur; simpl;
    repeat match goal with
           | |- context [call ?c] => destruct c; simpl
           end;
    rewrite ?significant_extrasteps_apply;
    try done;
    intros [= <-]; simpl;
    eexists; split_and!; done.
Qed.

(** What the loop leaves when it was not left by an exception. *)
Lemma apply_loop_not_raised repo reauthor pairs st :
  match apply_loop repo reauthor st pairs with
  | Raised e _ =>
      e = ValueError FixupFirst ∨ e = ValueError SquashFirst
      ∨ ∃ x, e = External x
  | Continue st' =>
      Forall (fun pair => action pair.2 ≠ INDEX) pairs ∧
      (is_Some (current st) → is_Some (current st')) ∧
      (pairs ≠ [] → is_Some (current st')) ∧
      length (printed st') = length (printed st) + length pairs ∧
      length (rebase_calls st') = length (rebase_calls st) + length pairs
  | Break st' =>
      (is_Some (current st) → is_Some (current st')) ∧
      (current st' = None →
       ∃ known_state step rest,
         pairs = (known_state, step) :: rest ∧ action step = INDEX ∧
         st' = begin_step st known_state step)
  end.
Proof.
  revert st. induction pairs as [|[known_state step] pairs IH]; intros st.
  { simpl. split_and!; [done|done|done|lia|lia]. }
  simpl.
  destruct (apply_step repo reauthor st known_state step) as [st1|st1|e st1]
    eqn:Hstep.
  - apply apply_step_continue in Hstep
      as (cur & Hcur & Hidx & _ & Hprinted & Hcalls).
    specialize (IH st1).
    destruct (apply_loop repo reauthor st1 pairs) as [st2|st2|e st2].
    + destruct IH as (Hall & Hsome & _ & Hp & Hc).
      split_and!.
      * by constructor.
      * intros _. apply Hsome. by rewrite Hcur.
      * intros _. apply Hsome. by rewrite Hcur.
      * rewrite Hp, Hprinted, length_app. simpl. lia.
      * rewrite Hc, Hcalls. simpl. rewrite length_app. simpl. lia.
    + destruct IH as (Hsome & Hnone). split.
      * intros _. apply Hsome. by rewrite Hcur.
      * intros Hcur2. destruct Hsome as [c Hc]; [by rewrite Hcur|congruence].
    + done.
  - apply apply_step_break in Hstep as (Hidx & ->). split.
    + done.
    + intros _. by exists known_state, step, pairs.
  - apply apply_step_raised in Hstep. tauto.
Qed.

(** X17. [apply_todos] raises three errors of its own and no other: a fixup
    or a squash with no commit to fold into, and a run that leaves no
    commit. Every other exception comes from a collaborator. In
    particular the unhandled-action errors are never raised: comments are
    filtered out, and every other extra step is an update-ref. *)
Theorem apply_todos_raises repo current_ todos_original todos_edited reauthor
    refs_ e :
  (apply_todos repo current_ todos_original todos_edited reauthor refs_).1
  = Raise e →
  e = ValueError FixupFirst ∨ e = ValueError SquashFirst
  ∨ e = ValueError NoCommitsIntroduced ∨ ∃ x, e = External x.
Proof.
  unfold apply_todos.
  pose proof (apply_loop_not_raised repo reauthor
                (zip todos_original todos_edited)
                (initial_state current_ refs_)) as H.
  destruct (apply_loop _ _ _ _) as [st|st|e' st]; simpl.
  - destruct (current st); simpl; [done|]. intros [= <-]. auto.
  - destruct (current st); simpl; [done|]. intros [= <-]. auto.
  - intros [= <-]. tauto.
Qed.

(** X18. [apply_todos] reports that no commit was introduced exactly when
    it starts from no commit and applies no step: the paired plans are
    empty, or the first edited step is an index step whose rebase call
    came back. *)
Theorem apply_todos_no_commits repo todos_original todos_edited reauthor
    refs_ current_ :
  (apply_todos repo current_ todos_original todos_edited reauthor refs_).1
  = Raise (ValueError NoCommitsIntroduced) ↔
  current_ = None ∧
  (zip todos_original todos_edited = []
   ∨ ∃ known_state step rest r,
       zip todos_original todos_edited = (known_state, step) :: rest ∧
       action step = INDEX ∧
       rebase repo (commit step) None
              (tree_to_keep_for (initial_state None refs_) known_state step)
       = inr r).
Proof.
  unfold apply_todos.
  pose proof (apply_loop_not_raised repo reauthor
                (zip todos_original todos_edited)
                (initial_state current_ refs_)) as H.
  split.
  - destruct (apply_loop _ _ _ _) as [st|st|e' st] eqn:Hloop; simpl.
    + destruct H as (_ & Hsome & Hne & _).
      destruct (current st) eqn:Hcur; simpl; [done|]. intros _.
      destruct current_ as [c|]; [by destruct Hsome as [? [=]]|].
      split; [done|]. left.
      destruct (zip todos_original todos_edited); [done|].
      by destruct Hne as [? [=]].
    + destruct H as (Hsome & Hnone).
      destruct (current st) eqn:Hcur; simpl; [done|]. intros _.
      destruct current_ as [c|]; [by destruct Hsome as [? [=]]|].
      split; [done|]. right.
      destruct Hnone as (known_state & step & rest & Hzip & Hidx & ->); [done|].
      rewrite Hzip in Hloop. simpl in Hloop.
      unfold apply_step, after_rebase in Hloop. simpl in Hloop.
      destruct (rebase repo _ _ _) as [x|r] eqn:Hr; [done|].
      by exists known_state, step, rest, r.
    + intros [= ->]. destruct H as [[=]|[[=]|[? [=]]]].
  - intros (-> & [Hzip|(known_state & step & rest & r & Hzip & Hidx & Hr)]).
    + by rewrite Hzip.
    + rewrite Hzip. simpl. unfold apply_step, after_rebase. simpl. rewrite Hr.
      unfold transition. by rewrite Hidx.
Qed.

Lemma foldl_update_head cur (extras : list CommitlessStep) refs_ ref :
  foldl (fun r extra => update_head r (operand extra) cur) refs_ extras !! ref
  = if decide (ref ∈ operand <$> extras) then Some (oid cur)
    else refs_ !! ref.
Proof.
  revert refs_. induction extras as [|extra extras IH]; intros refs_.
  - case_decide as Hin; [by apply elem_of_nil in Hin|done].
  - rewrite fmap_cons. cbn [foldl]. rewrite IH. unfold update_head.
    destruct (decide (ref ∈ operand <$> extras)) as [Hin|Hout].
    + rewrite decide_True; [done|]. by right.
    + destruct (decide (ref = operand extra)) as [->|Hne].
      * rewrite lookup_insert_eq, decide_True; [done|]. by left.
      * rewrite lookup_insert_ne by done.
        rewrite decide_False; [done|].
        by intros [?|?]%elem_of_cons.
Qed.

(** X19. After a step that went through, with [update_head] taken to
    repoint the ref it is given, every ref named by an update-ref extra
    step of the step points at the new tip, and every other ref is where it
    was: a ref named by a comment only is not moved. *)
Theorem apply_step_moves_refs repo reauthor st known_state step st' :
  apply_step repo reauthor st known_state step = Continue st' →
  ∃ tip,
    current st' = Some tip ∧
    (∀ extra,
       extra ∈ extrasteps step → extra_action extra = UPDATE_REF →
       refs st' !! operand extra = Some (oid tip)) ∧
    (∀ ref,
       (∀ extra, extra ∈ extrasteps step → extra_action extra = UPDATE_REF →
                 operand extra ≠ ref) →
       refs st' !! ref = refs st !! ref).
Proof.
  intros (cur & Hcur & _ & Hrefs & _)%apply_step_continue.
  exists cur. split; [done|].
  assert (∀ ref,
            ref ∈ operand <$> significant_extrasteps step ↔
            ∃ extra, extra ∈ extrasteps step ∧
                     extra_action extra = UPDATE_REF ∧ operand extra = ref)
    as Hiff.
  { intros ref. unfold significant_extrasteps. rewrite list_elem_of_fmap. split.
    - intros (extra & -> & [Hsig Hin]%list_elem_of_filter).
      exists extra. split_and!; [done| |done].
      by destruct (extra_action extra).
    - intros (extra & Hin & Hact & <-). exists extra. split; [done|].
      apply list_elem_of_filter. split; [|done]. by rewrite Hact. }
  split.
  - intros extra Hin Hact. rewrite Hrefs, foldl_update_head.
    rewrite decide_True; [done|]. apply Hiff. eauto.
  - intros ref Hother. rewrite Hrefs, foldl_update_head.
    rewrite decide_False; [done|].
    intros (extra & Hin & Hact & Heq)%Hiff. by apply (Hother extra).
Qed.

(** X20. A run of [apply_todos] that meets no index step and returns has
    called the rebase once and printed one progress line for each pair of
    an original and an edited step: the longer plan is cut to the length of
    the shorter. *)
Theorem apply_todos_counts repo current_ todos_original todos_edited reauthor
    refs_ tip :
  Forall (fun step => action step ≠ INDEX) todos_edited →
  (apply_todos repo current_ todos_original todos_edited reauthor refs_).1
  = Ok tip →
  let st :=
    (apply_todos repo current_ todos_original todos_edited reauthor refs_).2 in
  current st = Some tip ∧
  length (printed st) = length todos_original `min` length todos_edited ∧
  length (rebase_calls st) = length todos_original `min` length todos_edited.
Proof.
  intros Hnoindex. unfold apply_todos.
  pose proof (apply_loop_not_raised repo reauthor
                (zip todos_original todos_edited)
                (initial_state current_ refs_)) as H.
  destruct (apply_loop _ _ _ _) as [st|st|e' st] eqn:Hloop; simpl.
  - destruct H as (_ & _ & _ & Hp & Hc).
    destruct (current st) eqn:Hcur; simpl; [|done]. intros [= ->].
    rewrite Hcur, Hp, Hc. simpl. rewrite length_zip. done.
  - exfalso. clear H. revert Hloop. generalize (initial_state current_ refs_).
    revert todos_original.
    induction Hnoindex as [|step todos_edited Hstep _ IH];
      intros [|known_state todos_original] st0; simpl; try done.
    destruct (apply_step repo reauthor st0 known_state step) eqn:Hs;
      try done.
    + apply IH.
    + by apply apply_step_break in Hs as [? _].
  - done.
Qed.

Lemma apply_todos_raises_witness :
  (apply_todos repo0 None [pick_B] [fixup_B] false ∅).1
  = Raise (ValueError FixupFirst) ∧
  (ValueError FixupFirst = ValueError FixupFirst
   ∨ ValueError FixupFirst = ValueError SquashFirst
   ∨ ValueError FixupFirst = ValueError NoCommitsIntroduced
   ∨ ∃ x, ValueError FixupFirst = External x).
Proof.
  assert ((apply_todos repo0 None [pick_B] [fixup_B] false ∅).1
          = Raise (ValueError FixupFirst)) as H.
  { vm_compute. reflexivity. }
  split; [exact H|].
  exact (apply_todos_raises repo0 None [pick_B] [fixup_B] false ∅ _ H).
Defined.

Lemma apply_step_moves_refs_witness :
  ∃ st' tip,
    apply_step repo0 false on_commit_A pick_B pick_B_with_refs = Continue st' ∧
    current st' = Some tip ∧
    refs st' !! "refs/heads/topic" = Some (oid tip) ∧
    refs st' !! "refs/tags/v2" = refs on_commit_A !! "refs/tags/v2".
Proof.
  destruct (apply_step repo0 false on_commit_A pick_B pick_B_with_refs)
    as [st'| |] eqn:H; [|vm_compute in H; discriminate H..].
  destruct (apply_step_moves_refs repo0 false on_commit_A pick_B
              pick_B_with_refs st' H) as (tip & Hcur & Hmoved & Hkept).
  exists st', tip. split_and!; [reflexivity|exact Hcur| |].
  - apply (Hmoved {| extra_action := UPDATE_REF;
                     operand := "refs/heads/topic" |}); [|reflexivity].
    apply list_elem_of_In. vm_compute. left. reflexivity.
  - apply Hkept. intros extra Hin Hact Heq.
    apply list_elem_of_In in Hin. vm_compute in Hin.
    destruct Hin as [<-|[<-|[]]]; vm_compute in Hact, Heq; discriminate.
Defined.

Lemma apply_todos_counts_witness :
  ∃ tip,
    (apply_todos repo0 (Some root_commit) [pick_A; pick_B; pick_C]
                 [pick_B; pick_A] false ∅).1 = Ok tip ∧
    length (printed (apply_todos repo0 (Some root_commit)
                       [pick_A; pick_B; pick_C] [pick_B; pick_A] false ∅).2)
    = 2.
Proof.
  destruct (apply_todos repo0 (Some root_commit) [pick_A; pick_B; pick_C]
              [pick_B; pick_A] false ∅).1 as [tip|] eqn:H;
    [|vm_compute in H; discriminate H].
  exists tip. split; [reflexivity|].
  apply (apply_todos_counts repo0 (Some root_commit) [pick_A; pick_B; pick_C]
           [pick_B; pick_A] false ∅ tip); [|exact H].
  repeat constructor; discriminate.
Defined.

(** ** Plan builder *)

Lemma annotate_ref_fields outchecked refs step :
  action (foldl (annotate_ref outchecked) step refs) = action step ∧
  commit (foldl (annotate_ref outchecked) step refs) = commit step ∧
  step_message (foldl (annotate_ref outchecked) step refs) = step_message step.
Proof.
  revert step. induction refs as [|ref refs IH]; intros step; [done|].
  simpl. by destruct (IH (annotate_ref outchecked step ref)) as (-> & -> & ->).
Qed.

Lemma annotate_step_fields commit_refs outchecked step :
  action (annotate_step commit_refs outchecked step) = action step ∧
  commit (annotate_step commit_refs outchecked step) = commit step ∧
  step_message (annotate_step commit_refs outchecked step) = step_message step.
Proof. apply annotate_ref_fields. Qed.

Lemma build_todos_base repo commits index steps :
  build_todos repo commits index = Ok steps →
  ∃ commit_refs outchecked,
    steps = annotate_step commit_refs outchecked
              <$> ((new_CommitStep PICK <$> commits)
                   ++ (new_CommitStep INDEX <$> option_list index)).
Proof.
  unfold build_todos.
  intros (? & _ & (commit_refs & _ & (? & _ &
            (outchecked & _ & [= <-])%bind_Ok)%bind_Ok)%bind_Ok)%bind_Ok.
  exists commit_refs, outchecked. destruct index; simpl; [done|].
  by rewrite app_nil_r.
Qed.

Lemma build_todos_fields repo commits index steps :
  build_todos repo commits index = Ok steps →
  action <$> steps
  = ((fun _ => PICK) <$> commits) ++ ((fun _ => INDEX) <$> option_list index) ∧
  commit <$> steps = commits ++ option_list index ∧
  step_message <$> steps = message <$> (commits ++ option_list index).
Proof.
  intros (commit_refs & outchecked & ->)%build_todos_base.
  rewrite <- !list_fmap_compose.
  rewrite (list_fmap_ext (action ∘ annotate_step commit_refs outchecked) action)
    by (intros; apply annotate_step_fields).
  rewrite (list_fmap_ext (commit ∘ annotate_step commit_refs outchecked) commit)
    by (intros; apply annotate_step_fields).
  rewrite (list_fmap_ext (step_message ∘ annotate_step commit_refs outchecked)
             step_message)
    by (intros; apply annotate_step_fields).
  rewrite !fmap_app, <- !list_fmap_compose. split_and!; [done| |done].
  f_equal; exact (list_fmap_id _).
Qed.

Lemma picks_then_index_trail (steps : list CommitStep) {A B}
    (commits : list A) (index : list B) :
  action <$> steps
  = ((fun _ => PICK) <$> commits) ++ ((fun _ => INDEX) <$> index) →
  index_steps_trail steps.
Proof.
  intros Hactions.
  exists (take (length commits) steps), (drop (length commits) steps).
  split; [by rewrite take_drop|].
  apply (f_equal (take (length commits))) in Hactions as Hfront.
  apply (f_equal (drop (length commits))) in Hactions as Htail.
  rewrite <- fmap_take in Hfront. rewrite <- fmap_drop in Htail.
  rewrite take_app_length' in Hfront by by rewrite length_fmap.
  rewrite drop_app_length' in Htail by by rewrite length_fmap.
  split.
  - revert Hfront. generalize (take (length commits) steps). clear.
    intros front. revert commits.
    induction front as [|s front IH]; intros [|c commits] [=]; constructor.
    + congruence.
    + by apply (IH commits).
  - revert Htail. generalize (drop (length commits) steps). clear.
    intros tail_. revert index.
    induction tail_ as [|s tail_ IH]; intros [|c index] [=]; constructor.
    + done.
    + by apply (IH index).
Qed.

(** X21. The plan that [build_todos] returns has one pick step for each
    commit, in the order given, then one index step when an index commit is
    given; every step has the message of its commit, whatever refs
    annotate it. So its index steps come last. *)
Theorem build_todos_shape repo commits index steps :
  build_todos repo commits index = Ok steps →
  action <$> steps
  = ((fun _ => PICK) <$> commits) ++ ((fun _ => INDEX) <$> option_list index) ∧
  step_message <$> steps = message <$> (commits ++ option_list index) ∧
  index_steps_trail steps.
Proof.
  intros (Hactions & _ & Hmessages)%build_todos_fields.
  split_and!; [done..|]. by eapply picks_then_index_trail.
Qed.

(** X22. A plan built from commits with distinct identities passes the
    validator as its own edit: a user who leaves the plan as it is gets no
    error, whatever the object store holds. *)
Theorem build_todos_then_validate repo commits index steps :
  build_todos repo commits index = Ok steps →
  NoDup (oid <$> (commits ++ option_list index)) →
  validate_todos repo steps steps = Ok ().
Proof.
  intros (Hactions & Hcommits & _)%build_todos_fields Hnd.
  assert (NoDup (plan_oids steps)) as Hplan.
  { unfold plan_oids.
    rewrite (list_fmap_compose commit oid), Hcommits. done. }
  unfold validate_todos.
  rewrite decide_True by by apply oid_set_size_NoDup.
  rewrite decide_False by (intros H; by apply H, oid_set_size_NoDup).
  rewrite decide_False by set_solver.
  rewrite dropped_nil_of_subset by done.
  change (index_last false steps = Ok ()).
  apply index_last_false. by eapply picks_then_index_trail.
Qed.

Lemma build_todos_then_validate_witness :
  ∃ steps,
    build_todos repo0 [commit_A; commit_B] (Some commit_C) = Ok steps ∧
    validate_todos repo0 steps steps = Ok () ∧
    action <$> steps = [PICK; PICK; INDEX].
Proof.
  destruct (build_todos repo0 [commit_A; commit_B] (Some commit_C))
    as [steps|] eqn:H; [|vm_compute in H; discriminate H].
  exists steps. split; [reflexivity|]. split.
  - apply (build_todos_then_validate repo0 [commit_A; commit_B]
             (Some commit_C) steps H).
    apply (bool_decide_unpack _). vm_compute. exact I.
  - vm_compute in H. injection H as <-. reflexivity.
Defined.

Lemma build_todos_shape_witness :
  ∃ steps,
    build_todos repo0 [commit_A; commit_B] (Some commit_C) = Ok steps ∧
    action <$> steps = [PICK; PICK; INDEX] ∧
    step_message <$> steps = message <$> [commit_A; commit_B; commit_C].
Proof.
  destruct (build_todos repo0 [commit_A; commit_B] (Some commit_C))
    as [steps|] eqn:H; [|vm_compute in H; discriminate H].
  exists steps. split; [reflexivity|].
  destruct (build_todos_shape repo0 [commit_A; commit_B] (Some commit_C)
              steps H) as (Hactions & Hmessages & _).
  exact (conj Hactions Hmessages).
Defined.

(** ** Equality of steps *)

Lemma list_eq_length {A} (eq : A -> A -> bool) l k :
  list_eq eq l k = true → length l = length k.
Proof.
  revert k. induction l as [|x l IH]; intros [|y k]; simpl; try done.
  intros [_ H]%andb_true_iff. f_equal. by apply IH.
Qed.

Lemma significant_extrasteps_append step extra :
  significant_extrasteps (append_extrastep step extra)
  = significant_extrasteps step
    ++ (if decide (extra_action extra = COMMENT) then [] else [extra]).
Proof.
  unfold significant_extrasteps. simpl. rewrite filter_app. f_equal.
  rewrite filter_cons, filter_nil.
  destruct (decide (extra_action extra = COMMENT)) as [Heq|Hne].
  - by rewrite decide_False by (intros H; by apply H).
  - by rewrite decide_True.
Qed.

(** X23. Comments do not count in the comparison of two steps: when two
    steps are equal, one of them with one more extra step is still equal
    to the other exactly when that extra step is a comment. *)
Theorem CommitStep_eq_append_extrastep a b extra :
  CommitStep_eq a b = true →
  CommitStep_eq (append_extrastep a extra) b
  = bool_decide (extra_action extra = COMMENT).
Proof.
  unfold CommitStep_eq.
  intros [[[Hact Hcommit]%andb_true_iff Hmsg]%andb_true_iff Hextra]%andb_true_iff.
  simpl. rewrite Hact, Hcommit, Hmsg. simpl.
  rewrite significant_extrasteps_append.
  destruct (decide (extra_action extra = COMMENT)) as [Heq|Hne].
  - rewrite app_nil_r, Hextra. by rewrite bool_decide_eq_true_2.
  - rewrite bool_decide_eq_false_2 by done.
    destruct (list_eq _ (_ ++ _) _) eqn:H; [|done].
    apply list_eq_length in H, Hextra. rewrite length_app in H. simpl in H. lia.
Qed.

Lemma CommitStep_eq_append_extrastep_witness :
  CommitStep_eq pick_B pick_B = true ∧
  CommitStep_eq
    (append_extrastep pick_B
       {| extra_action := COMMENT; operand := "refs/tags/v2" |})
    pick_B = true ∧
  CommitStep_eq
    (append_extrastep pick_B
       {| extra_action := UPDATE_REF; operand := "refs/heads/topic" |})
    pick_B = false.
Proof.
  assert (CommitStep_eq pick_B pick_B = true) as H.
  { vm_compute. reflexivity. }
  split; [exact H|]. split.
  - exact (CommitStep_eq_append_extrastep pick_B pick_B
             {| extra_action := COMMENT; operand := "refs/tags/v2" |} H).
  - exact (CommitStep_eq_append_extrastep pick_B pick_B
             {| extra_action := UPDATE_REF; operand := "refs/heads/topic" |} H).
Defined.

(** ** Action vocabulary *)

(** X24. The name of an action parses to that action, and so does its
    first letter for the six actions that bear a commit: the one-letter
    commands that the editor's help text lists are read as it says. *)
Theorem parse_action_names :
  (∀ a, parse_action (Action_value a) = Ok a) ∧
  (∀ a : CommitAction,
     parse_action (String.substring 0 1 (CommitAction_value a)) = Ok (inl a)).
Proof.
  split.
  - intros [[]|[]]; vm_compute; reflexivity.
  - intros []; vm_compute; reflexivity.
Qed.

(** ** Autosquash matcher *)

Lemma lstrip_suffix s : ∃ pre, s = pre +:+ lstrip s.
Proof.
  induction s as [|c s [pre IH]]; [by exists EmptyString|].
  simpl. destruct (is_space c).
  - exists (String c pre). rewrite append_cons. by f_equal.
  - by exists EmptyString.
Qed.

Lemma take_word_suffix s w rest : take_word s = (w, rest) → s = w +:+ rest.
Proof.
  revert w rest. induction s as [|c s IH]; intros w rest; simpl.
  - by intros [= <- <-].
  - destruct (is_space c); [by intros [= <- <-]|].
    destruct (take_word s) as [w' rest'] eqn:Hw. intros [= <- <-].
    rewrite append_cons. f_equal. by apply IH.
Qed.

Lemma split_ws1_suffix s w rest :
  split_ws1 s = [w; rest] → ∃ pre, s = pre +:+ rest.
Proof.
  unfold split_ws1.
  destruct (lstrip_suffix s) as [pre1 Hs].
  destruct (lstrip s) as [|c s1] eqn:Hl; [done|].
  destruct (take_word (String c s1)) as [w' rest'] eqn:Hw.
  apply take_word_suffix in Hw.
  destruct (lstrip_suffix rest') as [pre2 Hrest].
  destruct (lstrip rest') as [|d r] eqn:Hr; [done|].
  intros [= <- <-]. exists (pre1 +:+ (w' +:+ pre2)).
  rewrite Hs, Hw, Hrest at 1. by rewrite !append_assoc.
Qed.

Lemma strip_prefixes_fuel_post fuel s needle :
  strip_prefixes_fuel fuel s = Some (Ok needle) →
  startswith needle fixup_prefix || startswith needle squash_prefix = false ∧
  ∃ pre, s = pre +:+ needle.
Proof.
  revert s. induction fuel as [|fuel IH]; intros s; simpl.
  - destruct (startswith s fixup_prefix || startswith s squash_prefix) eqn:Ht.
    + repeat case_match; done.
    + intros [= <-]. split; [done|]. by exists EmptyString.
  - destruct (startswith s fixup_prefix || startswith s squash_prefix) eqn:Ht.
    + destruct (split_ws1 s) as [|w [|rest [|]]] eqn:Hsplit; try done.
      intros (Hpost & pre & ->)%IH. split; [done|].
      apply split_ws1_suffix in Hsplit as [pre' ->].
      exists (pre' +:+ pre). by rewrite append_assoc.
    + intros [= <-]. split; [done|]. by exists EmptyString.
Qed.

(** X25. The needle that [add_autosquash_step] looks for is what is left of
    the summary once every leading fixup and squash prefix is taken off,
    however they are nested: it is an end piece of the summary and starts
    with neither prefix. *)
Theorem strip_prefixes_post summary_ needle :
  strip_prefixes summary_ = Ok needle →
  startswith needle fixup_prefix || startswith needle squash_prefix = false ∧
  ∃ pre, summary_ = pre +:+ needle.
Proof.
  unfold strip_prefixes.
  destruct (strip_prefixes_fuel _ summary_) as [[r|e]|] eqn:H; try done.
  intros [= ->]. by apply strip_prefixes_fuel_post in H.
Qed.

Lemma strip_prefixes_post_witness :
  strip_prefixes "fixup! squash! fixup! commit two" = Ok "commit two" ∧
  startswith "commit two" fixup_prefix || startswith "commit two" squash_prefix
  = false.
Proof.
  assert (strip_prefixes "fixup! squash! fixup! commit two" = Ok "commit two")
    as H.
  { vm_compute. reflexivity. }
  split; [exact H|].
  exact (proj1 (strip_prefixes_post _ _ H)).
Defined.

(** ** The edit that changes nothing *)

Lemma bind_singleton {A B} (f : A -> list B) x : [x] ≫= f = f x.
Proof. rewrite bind_cons. apply app_nil_r. Qed.

Lemma entries_bind repo todos msgedit :
  entries repo todos msgedit
  = todos ≫= fun step => entries repo [step] msgedit.
Proof.
  unfold entries, serialize_msgedit, serialize_linewise.
  destruct msgedit.
  - induction todos as [|step todos IH]; [done|].
    rewrite !(bind_cons _ step todos), bind_singleton. by rewrite <- IH.
  - induction todos as [|step todos IH]; [done|].
    rewrite !(bind_cons _ step todos), bind_singleton, filter_app. by rewrite <- IH.
Qed.

Lemma mapM_reads_back repo msgedit todos :
  Forall (reads_back repo msgedit) todos →
  mapM (parse_entry repo msgedit)
       (todos ≫= fun step => entries repo [step] msgedit)
  = Ok (((fun step => (bare step, extrasteps step)) <$> todos)
          ≫= fun '(step, extras) => inl step :: (inr <$> extras)).
Proof.
  induction 1 as [|step todos Hstep _ IH]; [done|].
  rewrite bind_cons, fmap_cons, bind_cons.
  apply mapM_app. eauto.
Qed.

Lemma foldl_append_extrastep step extras :
  foldl append_extrastep (bare step) extras
  = {| action := action step; commit := commit step;
       step_message := step_message step; extrasteps := extras |}.
Proof.
  assert (∀ s, foldl append_extrastep s extras
               = {| action := action s; commit := commit s;
                    step_message := step_message s;
                    extrasteps := extrasteps s ++ extras |}) as Hgen.
  { induction extras as [|extra extras IH]; intros s; simpl.
    - rewrite app_nil_r. by destruct s.
    - rewrite IH. simpl. by rewrite <- app_assoc. }
  by rewrite Hgen.
Qed.

Lemma validate_todos_same repo todos :
  NoDup (plan_oids todos) →
  validate_todos repo todos todos = index_last false todos.
Proof.
  intros Hnd. unfold validate_todos.
  rewrite decide_True by by apply oid_set_size_NoDup.
  rewrite decide_False by (intros H; by apply H, oid_set_size_NoDup).
  rewrite decide_False by set_solver.
  by rewrite dropped_nil_of_subset.
Qed.

(** X26. The edit that changes nothing gives the plan back: when the
    editor returns the text it was given, the entries written come back as
    the same entries (no entry has a line break in line mode, none has a
    later line that begins with the marker in message mode), each step is
    read back as it was written, no commit is in the plan twice and the
    index steps come last, [edit_todos] returns the plan it was given,
    extra steps included. *)
Theorem edit_todos_unchanged repo todos msgedit :
  head_on_top repo = false →
  editor_returns_unchanged repo todos msgedit →
  plain_entries repo todos msgedit →
  Forall (reads_back repo msgedit) todos →
  NoDup (plan_oids todos) →
  index_steps_trail todos →
  edit_todos repo todos msgedit = Ok todos.
Proof.
  intros Hflag Hed Hplain Hread Hnd Htrail. unfold edit_todos.
  rewrite Hflag.
  rewrite (edit_todos_entries repo todos msgedit false Hed Hplain).
  rewrite entries_bind, mapM_reads_back by done. simpl.
  rewrite reassociate_groups_onto. simpl.
  rewrite <- list_fmap_compose.
  assert ((fun '(step, extras) => foldl append_extrastep step extras)
            ∘ (fun step => (bare step, extrasteps step)) <$> todos = todos)
    as ->.
  { rewrite <- (list_fmap_id todos) at 2. apply list_fmap_ext.
    intros i step _. simpl. rewrite foldl_append_extrastep. by destruct step. }
  rewrite validate_todos_same by done.
  apply index_last_false in Htrail. by rewrite Htrail.
Qed.

Lemma edit_todos_unchanged_witness :
  edit_todos repo0 [pick_A; pick_B_with_refs] false
  = Ok [pick_A; pick_B_with_refs] ∧
  edit_todos repo0 [pick_A; pick_B_with_refs] true
  = Ok [pick_A; pick_B_with_refs].
Proof.
  assert (∀ msgedit,
            edit_todos repo0 [pick_A; pick_B_with_refs] msgedit
            = Ok [pick_A; pick_B_with_refs]) as H; [|by split].
  intros msgedit.
  apply (edit_todos_unchanged repo0 [pick_A; pick_B_with_refs] msgedit).
  - reflexivity.
  - intros flag. destruct msgedit; reflexivity.
  - destruct msgedit; repeat constructor.
  - destruct msgedit; repeat constructor; vm_compute; reflexivity.
  - apply (bool_decide_unpack _). vm_compute. exact I.
  - exists [pick_A; pick_B_with_refs], [].
    split; [reflexivity|]. split; repeat constructor; discriminate.
Defined.

(** ** Blocks of the message editor *)

Lemma split1_go_no_sep cur s :
  all_in Dot s = true → split1_go LF cur s = [cur +:+ s].
Proof.
  revert cur. induction s as [|c s IH]; intros cur; simpl.
  - by rewrite append_empty_r.
  - intros [Hc Hs]%andb_true_iff. apply negb_true_iff in Hc. rewrite Hc.
    rewrite IH by done. by rewrite append_snoc.
Qed.

Lemma re_split_marker_go_one_line cur s :
  all_in Dot s = true → re_split_marker_go false cur s = [cur +:+ s].
Proof.
  revert cur. induction s as [|c s IH]; intros cur.
  - simpl. by rewrite append_empty_r.
  - intros [Hc Hs]%andb_true_iff. apply negb_true_iff in Hc.
    rewrite re_split_marker_go_unfold.
    assert (is_marker_at false (String c s) = false) as ->.
    { destruct s as [ | c2 [ | c3 s3 ] ]; reflexivity. }
    simpl in Hc. rewrite Hc, IH by done. by rewrite append_snoc.
Qed.

(** X27. A response of the message editor that is one block on one line,
    with no line end after it, is not parsed: the block cannot be split
    into a command and a message, and [edit_todos_msgedit] raises the
    [ValueError] of the failed unpacking without looking at the command. *)
Theorem edit_todos_msgedit_one_line repo todos (flag : bool) full :
  run_editor repo (editor_text repo todos true flag) (length todos)
  = inr (marker +:+ full) →
  all_in Dot full = true →
  edit_todos_msgedit repo todos flag = Raise (ValueError UnpackMismatch).
Proof.
  intros Hed Hfull. unfold edit_todos_msgedit. unfold editor_text in Hed.
  rewrite Hed. simpl.
  rewrite re_split_marker_go_one_line by done. rewrite append_nil. simpl.
  unfold parse_block, split1. rewrite split1_go_no_sep by done. done.
Qed.

Lemma edit_todos_msgedit_one_line_witness :
  edit_todos_msgedit repo_one_line [pick_A] false
  = Raise (ValueError UnpackMismatch).
Proof.
  apply (edit_todos_msgedit_one_line repo_one_line [pick_A] false
           "pick aaaaaaaaaaaa").
  - reflexivity.
  - vm_compute. reflexivity.
Defined.

(** ** Failures of the plan builder *)

Lemma foldM_raises {A S} (f : S -> A -> result S) l s e :
  foldM f l s = Raise e → ∃ x s', x ∈ l ∧ f s' x = Raise e.
Proof.
  revert s. induction l as [|x l IH]; intros s; simpl; [done|].
  destruct (f s x) as [s'|e'] eqn:Hx; simpl.
  - intros (y & s'' & Hin & Hy)%IH. exists y, s''. split; [by right|done].
  - intros [= <-]. exists x, s. split; [left|done].
Qed.

Lemma split1_go_single sep cur line a :
  split1_go sep cur line = [a] → a = cur +:+ line.
Proof.
  revert cur. induction line as [|c line IH]; intros cur; simpl.
  - intros [= <-]. by rewrite append_empty_r.
  - destruct (Ascii.eqb c sep); [done|].
    intros H%IH. by rewrite append_snoc in H.
Qed.

(** X28. [build_todos] fails in three ways only: with the [ValueError] of a
    failed unpacking, on a line of the ref listing that has no space; with
    an [IndexError], on a worktree record that has a line made of the word
    branch alone; and with what a collaborator raises. *)
Theorem build_todos_raises repo commits index e :
  build_todos repo commits index = Raise e →
  (e = ValueError UnpackMismatch ∧
   ∃ out line,
     git_show_ref repo = inr out ∧ line ∈ splitlines out ∧
     split1 line SP = [line])
  ∨ (e = IndexError ∧
     ∃ out record,
       git_worktree_list repo = inr out ∧
       record ∈ split out (String LF (String LF EmptyString)) ∧
       "branch" ∈ split record (String LF EmptyString))
  ∨ ∃ x, e = External x.
Proof.
  unfold build_todos.
  destruct (git_show_ref repo) as [x|out] eqn:Hout; simpl;
    [intros [= <-]; eauto|].
  destruct (find_commit_refs repo out) as [commit_refs|e1] eqn:Hrefs; simpl.
  - destruct (git_worktree_list repo) as [x|out'] eqn:Hout'; simpl;
      [intros [= <-]; eauto|].
    destruct (find_outchecked out') as [outchecked|e2] eqn:Hchk; simpl;
      [done|].
    intros [= <-]. right. left.
    apply foldM_raises in Hchk as (record & s & Hrecord & Hchk).
    apply foldM_raises in Hchk as (line & s' & Hline & Hchk).
    unfold outchecked_line in Hchk.
    pose proof (split1_go_shape SP EmptyString line) as Hshape.
    fold (split1 line SP) in Hshape.
    destruct (split1 line SP) as [|key [|val rest]] eqn:Hsplit.
    + destruct Hshape as [[? [=]]|(? & ? & [=])].
    + case_decide as Hkey; [|done]. injection Hchk as <-.
      split; [done|]. exists out', record. split_and!; [done..|].
      apply split1_go_single in Hsplit. rewrite append_nil in Hsplit.
      by subst key line.
    + by case_decide.
  - intros [= <-]. unfold find_commit_refs in Hrefs.
    apply foldM_raises in Hrefs as (line & s & Hline & Hrefs).
    unfold show_ref_line in Hrefs.
    pose proof (split1_go_shape SP EmptyString line) as Hshape.
    fold (split1 line SP) in Hshape.
    destruct (split1 line SP) as [|sha [|refname [|]]] eqn:Hsplit.
    + destruct Hshape as [[? [=]]|(? & ? & [=])].
    + injection Hrefs as <-. left. split; [done|].
      exists out, line. split_and!; [done..|].
      rewrite Hsplit. f_equal.
      apply split1_go_single in Hsplit. by rewrite append_nil in Hsplit.
    + destruct (Oid_fromhex repo sha) as [x|o]; simpl in Hrefs; [|done].
      injection Hrefs as <-. eauto.
    + destruct Hshape as [[? [=]]|(? & ? & [=])].
Qed.

Lemma build_todos_raises_witness :
  build_todos repo_broken_listing [commit_A] None
  = Raise (ValueError UnpackMismatch) ∧
  ∃ out line,
    git_show_ref repo_broken_listing = inr out ∧
    line ∈ splitlines out ∧ split1 line SP = [line].
Proof.
  assert (build_todos repo_broken_listing [commit_A] None
          = Raise (ValueError UnpackMismatch)) as H.
  { vm_compute. reflexivity. }
  split; [exact H|].
  destruct (build_todos_raises _ _ _ _ H)
    as [[_ Hline]|[[Hno _]|[x Hno]]]; [exact Hline|discriminate..].
Defined.

(** ** The base commit *)

(** X29. An edit whose entry next to the base is commit-less is refused:
    when the first entry read, or the last one with the head on top, has
    a commit-less action, [edit_todos] raises the error on the base commit
    and validates nothing. *)
Theorem edit_todos_base_commit repo todos (msgedit : bool) polys extra :
  (if msgedit then edit_todos_msgedit repo todos (head_on_top repo)
   else edit_todos_linewise repo todos (head_on_top repo)) = Ok polys →
  (if head_on_top repo then last polys else head polys) = Some (inr extra) →
  edit_todos repo todos msgedit = Raise (ValueError NoBaseCommit).
Proof.
  intros Hpolys Hbase. unfold edit_todos. rewrite Hpolys. simpl.
  assert (∃ rest, (if head_on_top repo then reverse polys else polys)
                  = inr extra :: rest) as [rest ->]; [|done].
  destruct (head_on_top repo).
  - destruct polys as [|p polys _] using rev_ind; [done|].
    rewrite last_snoc in Hbase. injection Hbase as ->.
    rewrite reverse_snoc. eauto.
  - destruct polys as [|p polys]; [done|].
    injection Hbase as ->. eauto.
Qed.

Lemma edit_todos_base_commit_witness :
  edit_todos repo_ref_on_top [pick_A] false = Raise (ValueError NoBaseCommit).
Proof.
  apply (edit_todos_base_commit repo_ref_on_top [pick_A] false
           [inr {| extra_action := UPDATE_REF; operand := "refs/heads/topic" |};
            inl pick_A]
           {| extra_action := UPDATE_REF; operand := "refs/heads/topic" |}).
  - vm_compute. reflexivity.
  - reflexivity.
Defined.
